(** * Rate estimation from manual samples: the [FPSEstimator] class of fps.h

    A shallow embedding of the header-only class [FramesPerSecond::FPSEstimator]
    and theorems about its query [FPS], its pruning of old samples, [Reset]
    and the constructor.

    Modelling choices, all taken from the source:
    - [float] is IEEE 754 binary32, every operation rounded to nearest even
      and evaluated on its own (no excess precision, no fused multiply-add);
      the conversion of an integer to [float] rounds to nearest even too;
    - a [TIME_POINT_T] is the tick count of [std::chrono::steady_clock] in
      nanoseconds, an integer; the clock reading [Now()] taken inside
      [AddSample] and [FPS] is an explicit argument [now];
    - the two function-local [static int cleanup] counters of [FPS] live in a
      record [statics] that is threaded through every call, next to the
      instance itself;
    - [FPS] ends in one of four ways: one of the [return -1.f] statements, a
      return of an estimate, the [throw] of the [default] label, or undefined
      behaviour in [std::vector::erase] when its range is inverted. *)

From Stdlib Require Import ZArith List Bool Lia.
From Stdlib Require Import Floats.SpecFloat.
From Stdlib Require QArith Qcanon.
Import ListNotations.

Local Open Scope Z_scope.

(** ** Single-precision arithmetic *)

Module Float32.

Definition float : Type := spec_float.

Definition prec : Z := 24.
Definition emax : Z := 128.

Definition add : float -> float -> float := SFadd prec emax.
Definition sub : float -> float -> float := SFsub prec emax.
Definition mul : float -> float -> float := SFmul prec emax.
Definition div : float -> float -> float := SFdiv prec emax.

(** Conversion of an integer ([int], [long long]) to [float]. *)
Definition of_int (n : Z) : float := binary_normalize prec emax n 0 false.

(** [a >= b]; false as soon as one side is NaN. *)
Definition ge (a b : float) : bool := SFleb b a.

(** [a < b], used only to read a result as negative. *)
Definition lt (a b : float) : bool := SFltb a b.

(** The literals of the source: [0.f], [1.f], [-1.f], [1e3f], [1e6f]. *)
Definition zero : float := S754_zero false.
Definition one : float := of_int 1.
Definition minus_one : float := SFopp one.
Definition f1e3 : float := of_int 1000.
Definition f1e6 : float := of_int 1000000.

(** The decimal literal [n/10^k] rounded once, as the compiler does:
    numerator and denominator used below are exact in binary32, so the
    correctly rounded quotient is the literal's value. *)
Definition ratio (n d : Z) : float := div (of_int n) (of_int d).

Definition is_nan (x : float) : bool :=
  match x with S754_nan => true | _ => false end.

Definition is_inf (x : float) : bool :=
  match x with S754_infinity _ => true | _ => false end.

Definition is_zero (x : float) : bool :=
  match x with S754_zero _ => true | _ => false end.

(** Neither NaN nor an infinity. *)
Definition is_finite (x : float) : bool :=
  match x with S754_zero _ | S754_finite _ _ _ => true | _ => false end.

(** A normal number (a mantissa of exactly [prec] bits) whose exponent lies
    between [lo] and [hi]. *)
Definition normal (x : float) (lo hi : Z) : Prop :=
  match x with
  | S754_finite _ m e => Z.pos (digits2_pos m) = prec /\ lo <= e <= hi
  | _ => False
  end.

(** [x] is a zero, a finite number or an infinity of sign [s] ([true] for
    negative); NaN has no sign. *)
Definition has_sign (s : bool) (x : float) : Prop :=
  match x with
  | S754_zero s' | S754_finite s' _ _ | S754_infinity s' => s' = s
  | S754_nan => False
  end.

(** A mantissa that fits the format at exponent [e]: fewer than 24 bits at
    the smallest exponent, exactly 24 bits elsewhere; [0] stands for a
    result that has underflowed. *)
Definition fits_format (m e : Z) : Prop :=
  0 <= m < 2 ^ 24 /\ -149 <= e /\ (2 ^ 23 <= m \/ e = -149).

(** [3.f], the window of the driver. *)
Definition three : float := of_int 3.

End Float32.

(** ** The namespace [FramesPerSecond] *)

Module FramesPerSecond.

Import Float32.

(** [std::chrono::steady_clock::time_point], counted in nanoseconds. *)
Definition TIME_POINT_T : Type := Z.

(** [NanosecondsBetween]: the tick count of [end - start] divided by
    [1e3f]; despite its name the result is in microseconds. *)
Definition NanosecondsBetween (end_ start : TIME_POINT_T) : float :=
  div (of_int (end_ - start)) f1e3.

(** [enum EstimationMethod { CountSamples = 0, AverageIntervals }]; the
    parameter of [FPS] is the enumerator's integer value, all others are
    the values the [default] label receives. *)
Definition EstimationMethod : Type := Z.
Definition CountSamples : EstimationMethod := 0.
Definition AverageIntervals : EstimationMethod := 1.

Record FPSEstimator : Type := mkFPSEstimator {
  m_sample_times : list TIME_POINT_T;
  m_rolling : float;
  m_decay_factor : float
}.

(** The [static int cleanup] of the [CountSamples] block and the one of the
    [AverageIntervals] block: two variables, both shared by all instances. *)
Record statics : Type := mkStatics {
  cleanup_CountSamples : Z;
  cleanup_AverageIntervals : Z
}.

(** Both statics are initialised to [0] at program start. *)
Definition statics_init : statics := mkStatics 0 0.

(** Constructor: [m_rolling(0.f), m_decay_factor(0.f)], the vector is
    default-constructed. *)
Definition FPSEstimator_new : FPSEstimator :=
  mkFPSEstimator [] zero zero.

Definition SetDecayFactor (e : FPSEstimator) (new_decay_factor : float)
  : FPSEstimator :=
  mkFPSEstimator (m_sample_times e) (m_rolling e) new_decay_factor.

Definition AddSample (now : TIME_POINT_T) (e : FPSEstimator) : FPSEstimator :=
  mkFPSEstimator (m_sample_times e ++ [now]) (m_rolling e) (m_decay_factor e).

Definition Reset (e : FPSEstimator) : FPSEstimator :=
  mkFPSEstimator [] (m_rolling e) (m_decay_factor e).

(** [m_sample_times[i]] for an index inside the vector. *)
Definition at_index (s : list TIME_POINT_T) (i : Z) : TIME_POINT_T :=
  nth (Z.to_nat i) s 0.

(** The test of the scanning loops: it is false for a sample that is
    counted, true for the sample at which the loop breaks. *)
Definition too_old (now : TIME_POINT_T) (window_seconds : float)
           (t : TIME_POINT_T) : bool :=
  ge (NanosecondsBetween now t) (mul window_seconds f1e6).

(** The loop [for (; i >= 0; --i) { if (...) break; ++samples; }] of both
    blocks.  [n] is [i + 1]; the result is the final [i] ([-1] when the loop
    ran off the front of the vector) and the final counter.  The counter is
    a [float] in the [CountSamples] block and an [int] in the
    [AverageIntervals] block, so its type and increment are arguments. *)
Fixpoint backward_scan {C : Type} (incr : C -> C)
         (now : TIME_POINT_T) (window_seconds : float)
         (s : list TIME_POINT_T) (n : nat) (samples : C) : Z * C :=
  match n with
  | O => (-1, samples)
  | S k =>
      if too_old now window_seconds (nth k s 0)
      then (Z.of_nat k, samples)
      else backward_scan incr now window_seconds s k (incr samples)
  end.

(** [++samples] on a [float]. *)
Definition float_incr (x : float) : float := add x one.

(** [m_sample_times.erase(begin(), begin() + k)]: the first [k] elements go;
    outside [0 <= k <= size()] the call has undefined behaviour. *)
Definition erase_front (s : list TIME_POINT_T) (k : Z)
  : option (list TIME_POINT_T) :=
  if (0 <=? k) && (k <=? Z.of_nat (length s))
  then Some (skipn (Z.to_nat k) s)
  else None.

(** How a call of [FPS] ends. *)
Inductive outcome : Type :=
| Insufficient (g : statics) (e : FPSEstimator)
    (* one of the three [return -1.f;] *)
| Estimate (v : float) (g : statics) (e : FPSEstimator)
    (* [return m_rolling;], [return samples/window_seconds;] or
       [return fps_estimate;] *)
| Throws (g : statics) (e : FPSEstimator)
    (* [throw std::runtime_error(...)] *)
| Undefined.
    (* [erase] called with an inverted range *)

(** The [float] the caller receives, if the call returns. *)
Definition returned (o : outcome) : option float :=
  match o with
  | Insufficient _ _ => Some minus_one
  | Estimate v _ _ => Some v
  | Throws _ _ | Undefined => None
  end.

Definition estimator_after (o : outcome) : option FPSEstimator :=
  match o with
  | Insufficient _ e | Estimate _ _ e | Throws _ e => Some e
  | Undefined => None
  end.

Definition is_estimate (o : outcome) : bool :=
  match o with Estimate _ _ _ => true | _ => false end.

(** The block [{ static int cleanup = 0; if (++cleanup >= 1000) { cleanup =
    0; erase(begin(), begin()+i-1); } }]: the new counter and the new
    vector, or [None] when [erase] is undefined. *)
Definition discard_old_samples (cleanup : Z) (s : list TIME_POINT_T) (i : Z)
  : option (Z * list TIME_POINT_T) :=
  let cleanup1 := cleanup + 1 in
  if cleanup1 >=? 1000
  then match erase_front s (i - 1) with
       | Some s' => Some (0, s')
       | None => None
       end
  else Some (cleanup1, s).

(** [case CountSamples] of [FPS]. *)
Definition FPS_CountSamples (now : TIME_POINT_T) (g : statics)
           (e : FPSEstimator) (window_seconds : float) (soft_estimate : bool)
  : outcome :=
  let s := m_sample_times e in
  let '(i, samples) :=
    backward_scan float_incr now window_seconds s (length s) zero in
  if i <=? 0 then Insufficient g e
  else
    match discard_old_samples (cleanup_CountSamples g) s i with
    | None => Undefined
    | Some (cleanup', s') =>
        let rolling' :=
          add (mul (m_decay_factor e) (m_rolling e))
              (div (mul (sub one (m_decay_factor e)) samples)
                   window_seconds) in
        let g' := mkStatics cleanup' (cleanup_AverageIntervals g) in
        let e' := mkFPSEstimator s' rolling' (m_decay_factor e) in
        Estimate (if soft_estimate then rolling'
                  else div samples window_seconds) g' e'
    end.

(** [case AverageIntervals] of [FPS]. *)
Definition FPS_AverageIntervals (now : TIME_POINT_T) (g : statics)
           (e : FPSEstimator) (window_seconds : float) (soft_estimate : bool)
  : outcome :=
  let s := m_sample_times e in
  let youngest_sample := at_index s (Z.of_nat (length s) - 1) in
  let '(i, samples) :=
    backward_scan Z.succ now window_seconds s (length s) 0 in
  if i <? 0 then Insufficient g e
  else
    let average_interval :=
      div (NanosecondsBetween youngest_sample (at_index s i))
          (of_int samples) in
    let fps_estimate := div f1e6 average_interval in
    match discard_old_samples (cleanup_AverageIntervals g) s i with
    | None => Undefined
    | Some (cleanup', s') =>
        let rolling' :=
          add (mul (m_decay_factor e) (m_rolling e))
              (mul (sub one (m_decay_factor e)) fps_estimate) in
        let g' := mkStatics (cleanup_CountSamples g) cleanup' in
        let e' := mkFPSEstimator s' rolling' (m_decay_factor e) in
        Estimate (if soft_estimate then rolling' else fps_estimate) g' e'
    end.

(** [FPSEstimator::FPS]. *)
Definition FPS (now : TIME_POINT_T) (g : statics) (e : FPSEstimator)
           (window_seconds : float) (soft_estimate : bool)
           (method : EstimationMethod) : outcome :=
  if Z.of_nat (length (m_sample_times e)) <=? 0 then Insufficient g e
  else if method =? CountSamples then
    FPS_CountSamples now g e window_seconds soft_estimate
  else if method =? AverageIntervals then
    FPS_AverageIntervals now g e window_seconds soft_estimate
  else Throws g e.

(** *** Runs of calls on one estimator *)

(** The public member functions, with the clock reading each one takes. *)
Inductive call : Type :=
| Call_SetDecayFactor (new_decay_factor : float)
| Call_AddSample (now : TIME_POINT_T)
| Call_FPS (now : TIME_POINT_T) (window_seconds : float)
           (soft_estimate : bool) (method : EstimationMethod)
| Call_Reset.

(** One call on the program state (the statics and the instance); [None]
    when the call throws or is undefined, which ends the run. *)
Definition step (c : call) (st : statics * FPSEstimator)
  : option (statics * FPSEstimator) :=
  let '(g, e) := st in
  match c with
  | Call_SetDecayFactor d => Some (g, SetDecayFactor e d)
  | Call_AddSample now => Some (g, AddSample now e)
  | Call_Reset => Some (g, Reset e)
  | Call_FPS now w soft method =>
      match FPS now g e w soft method with
      | Insufficient g' e' | Estimate _ g' e' => Some (g', e')
      | Throws _ _ | Undefined => None
      end
  end.

Fixpoint run (cs : list call) (st : statics * FPSEstimator)
  : option (statics * FPSEstimator) :=
  match cs with
  | [] => Some st
  | c :: cs' =>
      match step c st with
      | Some st' => run cs' st'
      | None => None
      end
  end.

(** Whether call [c], made in state [st], is a query by [method] that
    returns an estimate. *)
Definition succeeds_with (method : EstimationMethod) (c : call)
           (st : statics * FPSEstimator) : bool :=
  match c with
  | Call_FPS now w soft m =>
      (m =? method) && is_estimate (FPS now (fst st) (snd st) w soft m)
  | _ => false
  end.

(** The number of queries by [method] that return an estimate in the run
    of [cs] from [st]. *)
Fixpoint successes (method : EstimationMethod) (cs : list call)
         (st : statics * FPSEstimator) : Z :=
  match cs with
  | [] => 0
  | c :: cs' =>
      (if succeeds_with method c st then 1 else 0) +
      match step c st with
      | Some st' => successes method cs' st'
      | None => 0
      end
  end.


(** *** Notions used in the statements *)


(** The readings of a clock that counts nanoseconds from [0] in a signed
    64-bit integer; the difference of two of them does not overflow. *)
Definition in_clock_range (t : TIME_POINT_T) : Prop := 0 <= t < 2 ^ 63.

(** The samples of the trailing window, oldest first. *)
Definition in_window (now : TIME_POINT_T) (window_seconds : float)
           (s : list TIME_POINT_T) : list TIME_POINT_T :=
  filter (fun t => negb (too_old now window_seconds t)) s.

(** The estimator after [AddSample] was called at each of the clock
    readings [ts], in that order. *)
Definition with_samples (ts : list TIME_POINT_T) (e : FPSEstimator)
  : FPSEstimator :=
  fold_left (fun e' t => AddSample t e') ts e.

(** One millisecond, in clock ticks. *)
Definition ms : Z := 1000000.

(** *** The wording of the specification, for comparison with [FPS] *)

(** "The elapsed duration between the oldest in-window sample and the most
    recent sample, divided by the number of in-window samples, inverted to
    a rate", with the unit conversions of the source. *)
Definition spec_AverageIntervals (now : TIME_POINT_T) (window_seconds : float)
           (s : list TIME_POINT_T) : float :=
  let inside := in_window now window_seconds s in
  let oldest := hd 0 inside in
  let most_recent := last s 0 in
  div f1e6 (div (NanosecondsBetween most_recent oldest)
                (of_int (Z.of_nat (length inside)))).

(** "rolling_estimate = decay_factor * rolling_estimate + (1 - decay_factor)
    * instantaneous". *)
Definition spec_rolling (decay_factor rolling instantaneous : float) : float :=
  add (mul decay_factor rolling) (mul (sub one decay_factor) instantaneous).

(** *** The two estimates, as functions of the index where the scan stops *)

(** The [float] counter of the [CountSamples] block after [k] increments. *)
Definition counted (k : Z) : float := Nat.iter (Z.to_nat k) float_incr zero.

(** [samples/window_seconds] when the scan stops at index [i]. *)
Definition count_rate (window_seconds : float) (s : list TIME_POINT_T) (i : Z)
  : float :=
  div (counted (Z.of_nat (length s) - 1 - i)) window_seconds.

(** [fps_estimate] when the scan stops at index [i]: [1e6f] over the time
    from the sample at [i] to the last one, divided by the number of samples
    behind [i]. *)
Definition interval_rate (s : list TIME_POINT_T) (i : Z) : float :=
  let n := Z.of_nat (length s) in
  div f1e6 (div (NanosecondsBetween (at_index s (n - 1)) (at_index s i))
                (of_int (n - 1 - i))).

(** The scan stops at index [i] of [s]: the sample there is too old and all
    samples behind it are inside the window.  [i = -1] says that no sample
    is too old. *)
Definition stops_at (now : TIME_POINT_T) (window_seconds : float)
           (s : list TIME_POINT_T) (i : Z) : Prop :=
  -1 <= i < Z.of_nat (length s) /\
  (0 <= i -> too_old now window_seconds (at_index s i) = true) /\
  (forall j, i < j < Z.of_nat (length s) ->
             too_old now window_seconds (at_index s j) = false).

(** *** The driver of main.cpp *)

(** The loop of [main].  Each turn prints [fps.FPS(3.f)], sleeps and calls
    [fps.AddSample()]; a turn is given by the two clock readings it takes,
    the one of [FPS] and the one of [AddSample] (the random sleep only
    decides the second).  The printed numbers are collected in [out].  An
    exception that leaves [FPS] ends the program, as does undefined
    behaviour: [None]. *)
Fixpoint main_loop (ticks : list (TIME_POINT_T * TIME_POINT_T))
         (g : statics) (fps : FPSEstimator) (out : list float)
  : option (list float * statics * FPSEstimator) :=
  match ticks with
  | [] => Some (out, g, fps)
  | (t_query, t_sample) :: rest =>
      match FPS t_query g fps three false CountSamples with
      | Insufficient g' fps' =>
          main_loop rest g' (AddSample t_sample fps') (out ++ [minus_one])
      | Estimate v g' fps' =>
          main_loop rest g' (AddSample t_sample fps') (out ++ [v])
      | Throws _ _ | Undefined => None
      end
  end.

(** [main]: 1000 turns on a new estimator, [clock i] being the readings of
    turn [i]. *)
Definition main (clock : nat -> TIME_POINT_T * TIME_POINT_T)
  : option (list float * statics * FPSEstimator) :=
  main_loop (map clock (seq 0 1000)) statics_init FPSEstimator_new [].

(** *** A clock that does not run backwards *)

(** The clock readings taken by the calls of [cs], in order, never
    decrease, starting from the reading [t]. *)
Fixpoint clock_monotone (t : TIME_POINT_T) (cs : list call) : Prop :=
  match cs with
  | [] => True
  | Call_AddSample now :: cs' => t <= now /\ clock_monotone now cs'
  | Call_FPS now _ _ _ :: cs' => t <= now /\ clock_monotone now cs'
  | _ :: cs' => clock_monotone t cs'
  end.

(** ** The class over an arbitrary arithmetic *)

(** The specification gives the rolling estimate as a formula over the
    real numbers, and fps.h evaluates it in [float].  [Generic] is the
    class once more with [float] and its operations behind an interface,
    so that the formula can be compared with the code in an arithmetic
    that does not round.  What does not touch a [float] ([statics],
    [at_index], [erase_front], [discard_old_samples], the enumeration) is
    shared with the definitions above; the rest follows the source line
    by line, as they do. *)

Module Generic.

(** The type [float] with the operations that fps.h performs on it: [+],
    [-], [*], [/], [>=] and the conversion of an integer. *)
Record arithmetic : Type := mkArithmetic {
  float : Type;
  add : float -> float -> float;
  sub : float -> float -> float;
  mul : float -> float -> float;
  div : float -> float -> float;
  of_int : Z -> float;
  ge : float -> float -> bool
}.

Arguments add {a} _ _.
Arguments sub {a} _ _.
Arguments mul {a} _ _.
Arguments div {a} _ _.
Arguments of_int {a} _.
Arguments ge {a} _ _.

Section Class.

Context {A : arithmetic}.

(** The literals [0.f], [1.f], [1e3f] and [1e6f], all of them integers. *)
Definition zero : float A := of_int 0.
Definition one : float A := of_int 1.
Definition f1e3 : float A := of_int 1000.
Definition f1e6 : float A := of_int 1000000.

Definition NanosecondsBetween (end_ start : TIME_POINT_T) : float A :=
  div (of_int (end_ - start)) f1e3.

Record FPSEstimator : Type := mkFPSEstimator {
  m_sample_times : list TIME_POINT_T;
  m_rolling : float A;
  m_decay_factor : float A
}.

Definition FPSEstimator_new : FPSEstimator :=
  mkFPSEstimator [] zero zero.

Definition SetDecayFactor (e : FPSEstimator) (new_decay_factor : float A)
  : FPSEstimator :=
  mkFPSEstimator (m_sample_times e) (m_rolling e) new_decay_factor.

Definition AddSample (now : TIME_POINT_T) (e : FPSEstimator) : FPSEstimator :=
  mkFPSEstimator (m_sample_times e ++ [now]) (m_rolling e) (m_decay_factor e).

Definition Reset (e : FPSEstimator) : FPSEstimator :=
  mkFPSEstimator [] (m_rolling e) (m_decay_factor e).

Definition too_old (now : TIME_POINT_T) (window_seconds : float A)
           (t : TIME_POINT_T) : bool :=
  ge (NanosecondsBetween now t) (mul window_seconds f1e6).

Fixpoint backward_scan {C : Type} (incr : C -> C)
         (now : TIME_POINT_T) (window_seconds : float A)
         (s : list TIME_POINT_T) (n : nat) (samples : C) : Z * C :=
  match n with
  | O => (-1, samples)
  | S k =>
      if too_old now window_seconds (nth k s 0)
      then (Z.of_nat k, samples)
      else backward_scan incr now window_seconds s k (incr samples)
  end.

Definition float_incr (x : float A) : float A := add x one.

Inductive outcome : Type :=
| Insufficient (g : statics) (e : FPSEstimator)
| Estimate (v : float A) (g : statics) (e : FPSEstimator)
| Throws (g : statics) (e : FPSEstimator)
| Undefined.

Definition is_estimate (o : outcome) : bool :=
  match o with Estimate _ _ _ => true | _ => false end.

(** [case CountSamples] of [FPS]. *)
Definition FPS_CountSamples (now : TIME_POINT_T) (g : statics)
           (e : FPSEstimator) (window_seconds : float A) (soft_estimate : bool)
  : outcome :=
  let s := m_sample_times e in
  let '(i, samples) :=
    backward_scan float_incr now window_seconds s (length s) zero in
  if i <=? 0 then Insufficient g e
  else
    match discard_old_samples (cleanup_CountSamples g) s i with
    | None => Undefined
    | Some (cleanup', s') =>
        let rolling' :=
          add (mul (m_decay_factor e) (m_rolling e))
              (div (mul (sub one (m_decay_factor e)) samples)
                   window_seconds) in
        let g' := mkStatics cleanup' (cleanup_AverageIntervals g) in
        let e' := mkFPSEstimator s' rolling' (m_decay_factor e) in
        Estimate (if soft_estimate then rolling'
                  else div samples window_seconds) g' e'
    end.

(** [case AverageIntervals] of [FPS]. *)
Definition FPS_AverageIntervals (now : TIME_POINT_T) (g : statics)
           (e : FPSEstimator) (window_seconds : float A) (soft_estimate : bool)
  : outcome :=
  let s := m_sample_times e in
  let youngest_sample := at_index s (Z.of_nat (length s) - 1) in
  let '(i, samples) :=
    backward_scan Z.succ now window_seconds s (length s) 0 in
  if i <? 0 then Insufficient g e
  else
    let average_interval :=
      div (NanosecondsBetween youngest_sample (at_index s i))
          (of_int samples) in
    let fps_estimate := div f1e6 average_interval in
    match discard_old_samples (cleanup_AverageIntervals g) s i with
    | None => Undefined
    | Some (cleanup', s') =>
        let rolling' :=
          add (mul (m_decay_factor e) (m_rolling e))
              (mul (sub one (m_decay_factor e)) fps_estimate) in
        let g' := mkStatics (cleanup_CountSamples g) cleanup' in
        let e' := mkFPSEstimator s' rolling' (m_decay_factor e) in
        Estimate (if soft_estimate then rolling' else fps_estimate) g' e'
    end.

(** [FPSEstimator::FPS]. *)
Definition FPS (now : TIME_POINT_T) (g : statics) (e : FPSEstimator)
           (window_seconds : float A) (soft_estimate : bool)
           (method : EstimationMethod) : outcome :=
  if Z.of_nat (length (m_sample_times e)) <=? 0 then Insufficient g e
  else if method =? CountSamples then
    FPS_CountSamples now g e window_seconds soft_estimate
  else if method =? AverageIntervals then
    FPS_AverageIntervals now g e window_seconds soft_estimate
  else Throws g e.

(** Runs of calls, as above. *)
Inductive call : Type :=
| Call_SetDecayFactor (new_decay_factor : float A)
| Call_AddSample (now : TIME_POINT_T)
| Call_FPS (now : TIME_POINT_T) (window_seconds : float A)
           (soft_estimate : bool) (method : EstimationMethod)
| Call_Reset.

Definition step (c : call) (st : statics * FPSEstimator)
  : option (statics * FPSEstimator) :=
  let '(g, e) := st in
  match c with
  | Call_SetDecayFactor d => Some (g, SetDecayFactor e d)
  | Call_AddSample now => Some (g, AddSample now e)
  | Call_Reset => Some (g, Reset e)
  | Call_FPS now w soft method =>
      match FPS now g e w soft method with
      | Insufficient g' e' | Estimate _ g' e' => Some (g', e')
      | Throws _ _ | Undefined => None
      end
  end.

Fixpoint run (cs : list call) (st : statics * FPSEstimator)
  : option (statics * FPSEstimator) :=
  match cs with
  | [] => Some st
  | c :: cs' =>
      match step c st with
      | Some st' => run cs' st'
      | None => None
      end
  end.

(** Whether call [c], made in state [st], is a query that returns an
    estimate, by whichever method and with or without [soft_estimate]. *)
Definition succeeds (c : call) (st : statics * FPSEstimator) : bool :=
  match c with
  | Call_FPS now w soft m => is_estimate (FPS now (fst st) (snd st) w soft m)
  | _ => false
  end.

(** The number of queries that return an estimate in the run of [cs] from
    [st]. *)
Fixpoint successes (cs : list call) (st : statics * FPSEstimator) : Z :=
  match cs with
  | [] => 0
  | c :: cs' =>
      (if succeeds c st then 1 else 0) +
      match step c st with
      | Some st' => successes cs' st'
      | None => 0
      end
  end.

(** The decay factor in force after the calls [cs], when it was [d]
    before them: the argument of the last [SetDecayFactor]. *)
Fixpoint decay_factor_set (cs : list call) (d : float A) : float A :=
  match cs with
  | [] => d
  | Call_SetDecayFactor d' :: cs' => decay_factor_set cs' d'
  | _ :: cs' => decay_factor_set cs' d
  end.

(** "rolling_estimate = decay_factor * rolling_estimate + (1 - decay_factor)
    * instantaneous", the wording of the specification. *)
Definition spec_rolling (decay_factor rolling instantaneous : float A)
  : float A :=
  add (mul decay_factor rolling) (mul (sub one decay_factor) instantaneous).

End Class.

Arguments FPSEstimator : clear implicits.
Arguments outcome : clear implicits.
Arguments call : clear implicits.

(** Laws of exact arithmetic: a quotient of a product is the product with
    the quotient, a product with [0] is [0], and [0] added to a number is
    that number.  They hold of the real and of the rational numbers; an
    arithmetic that rounds every result, as [float] does, can miss the
    first one in the last bit. *)
Definition exact (A : arithmetic) : Prop :=
  (forall a b c : float A, div (mul a b) c = mul a (div b c)) /\
  (forall a : float A, mul a zero = zero) /\
  (forall a : float A, add zero a = a).

(** The rational numbers, each one in lowest terms; a division by [0]
    gives [0]. *)
Definition rational : arithmetic :=
  mkArithmetic Qcanon.Qc Qcanon.Qcplus Qcanon.Qcminus Qcanon.Qcmult
               Qcanon.Qcdiv
               (fun n => Qcanon.Q2Qc (QArith_base.inject_Z n))
               (fun a b => QArith_base.Qle_bool (Qcanon.this b) (Qcanon.this a)).

(** The decimal [n/d] as a rational number. *)
Definition fraction (n d : Z) : float rational :=
  @div rational (of_int n) (of_int d).

End Generic.

(** The arithmetic of the definitions above, binary32, is one instance. *)
Definition binary32 : Generic.arithmetic :=
  Generic.mkArithmetic float add sub mul div of_int ge.

Definition generic (e : FPSEstimator) : Generic.FPSEstimator binary32 :=
  Generic.mkFPSEstimator
    (A := binary32) (m_sample_times e) (m_rolling e) (m_decay_factor e).

Definition generic_outcome (o : outcome) : Generic.outcome binary32 :=
  match o with
  | Insufficient g e => Generic.Insufficient g (generic e)
  | Estimate v g e => Generic.Estimate (A := binary32) v g (generic e)
  | Throws g e => Generic.Throws g (generic e)
  | Undefined => Generic.Undefined
  end.

(** ** Facts about the arithmetic *)

Lemma minus_one_negative : lt minus_one zero = true.
Proof. reflexivity. Qed.

(** The right shift of the rounding keeps a mantissa non-negative and
    divides it by a power of two. *)
Lemma shr_1_nonneg mrs : 0 <= shr_m mrs -> 0 <= shr_m (shr_1 mrs).
Proof.
  destruct mrs as [m r t]. destruct m as [|p|p]; simpl; intros H;
    try lia; destruct p; simpl; lia.
Qed.

Lemma iter_pos_shr_1_nonneg p :
  forall mrs, 0 <= shr_m mrs -> 0 <= shr_m (iter_pos shr_1 p mrs).
Proof.
  induction p as [p IH|p IH|]; intros mrs H; simpl.
  - apply IH, IH. now apply shr_1_nonneg.
  - now apply IH, IH.
  - now apply shr_1_nonneg.
Qed.

(** The number of bits of a mantissa. *)
Lemma digits2_pos_bounds p :
  2 ^ (Z.pos (digits2_pos p) - 1) <= Z.pos p < 2 ^ Z.pos (digits2_pos p).
Proof.
  induction p as [p IH|p IH|]; cbn [digits2_pos].
  - rewrite Pos2Z.inj_succ.
    replace (Z.succ (Z.pos (digits2_pos p)) - 1) with (Z.succ (Z.pos (digits2_pos p) - 1)) by lia.
    rewrite !Z.pow_succ_r by lia. lia.
  - rewrite Pos2Z.inj_succ.
    replace (Z.succ (Z.pos (digits2_pos p)) - 1) with (Z.succ (Z.pos (digits2_pos p) - 1)) by lia.
    rewrite !Z.pow_succ_r by lia. lia.
  - simpl. lia.
Qed.

Lemma digits2_pos_unique p d :
  0 < d -> 2 ^ (d - 1) <= Z.pos p < 2 ^ d -> Z.pos (digits2_pos p) = d.
Proof.
  intros Hd [Hlo Hhi]. pose proof (digits2_pos_bounds p) as [Blo Bhi].
  set (d' := Z.pos (digits2_pos p)) in *.
  assert (d' - 1 < d).
  { apply (Z.pow_lt_mono_r_iff 2); lia. }
  assert (d - 1 < d').
  { apply (Z.pow_lt_mono_r_iff 2); lia. }
  lia.
Qed.

Lemma shr_1_m mrs : 0 <= shr_m mrs -> shr_m (shr_1 mrs) = shr_m mrs / 2.
Proof.
  destruct mrs as [m r t]. destruct m as [|p|p]; simpl; intros H; try lia.
  - reflexivity.
  - destruct p as [p|p|]; simpl.
    + rewrite Pos2Z.inj_xI. apply (Z.div_unique _ 2 _ 1); lia.
    + rewrite Pos2Z.inj_xO. apply (Z.div_unique _ 2 _ 0); lia.
    + reflexivity.
Qed.

Lemma iter_pos_shr_1_m p : forall mrs,
  0 <= shr_m mrs -> shr_m (iter_pos shr_1 p mrs) = shr_m mrs / 2 ^ Z.pos p.
Proof.
  induction p as [p IH|p IH|]; intros mrs H; cbn [iter_pos].
  - rewrite IH by (apply iter_pos_shr_1_nonneg; now apply shr_1_nonneg).
    rewrite IH by now apply shr_1_nonneg.
    rewrite shr_1_m by exact H.
    rewrite !Z.div_div by lia.
    f_equal. change 2 with (2 ^ 1) at 1.
    rewrite <- !Z.pow_add_r by lia. f_equal. lia.
  - rewrite IH by now apply iter_pos_shr_1_nonneg.
    rewrite IH by exact H.
    rewrite !Z.div_div by lia.
    f_equal. rewrite <- Z.pow_add_r by lia. f_equal. lia.
  - rewrite shr_1_m by exact H. reflexivity.
Qed.

Lemma Zdigits2_unique m d :
  0 < d -> 2 ^ (d - 1) <= m < 2 ^ d -> Zdigits2 m = d.
Proof.
  intros Hd H. assert (0 < 2 ^ (d - 1)) by (apply Z.pow_pos_nonneg; lia).
  destruct m as [|p|p]; try lia. now apply digits2_pos_unique.
Qed.

Lemma shr_fexp_normal m e l k :
  0 <= k -> 2 ^ (23 + k) <= m < 2 ^ (24 + k) -> -149 <= e + k ->
  exists mrs,
    shr_fexp prec emax m e l = (mrs, e + k) /\ 2 ^ 23 <= shr_m mrs < 2 ^ 24.
Proof.
  intros Hk Hm He. unfold shr_fexp.
  rewrite (Zdigits2_unique m (24 + k)) by
    (try lia; replace (24 + k - 1) with (23 + k) by lia; exact Hm).
  replace (fexp prec emax (24 + k + e) - e) with k
    by (unfold fexp, emin, prec, emax; lia).
  assert (H0 : shr_m (shr_record_of_loc m l) = m)
    by (destruct l as [|[| |]]; reflexivity).
  unfold shr. destruct k as [|q|q]; [| |lia].
  - eexists. split; [rewrite Z.add_0_r; reflexivity|].
    rewrite H0. rewrite !Z.add_0_r in Hm. exact Hm.
  - eexists. split; [reflexivity|].
    assert (Hpos : 0 < 2 ^ Z.pos q) by (apply Z.pow_pos_nonneg; lia).
    rewrite iter_pos_shr_1_m by (rewrite H0; lia).
    rewrite H0. rewrite !Z.pow_add_r in Hm by lia. split.
    + apply Z.div_le_lower_bound; lia.
    + apply Z.div_lt_upper_bound; lia.
Qed.

Lemma binary_round_aux_normal sx mx ex lx k :
  0 <= k -> 2 ^ (23 + k) <= mx < 2 ^ (24 + k) ->
  -149 <= ex + k -> ex + k + 1 <= 104 ->
  normal (binary_round_aux prec emax sx mx ex lx) (ex + k) (ex + k + 1).
Proof.
  intros Hk Hm Hlo Hhi. unfold binary_round_aux.
  destruct (shr_fexp_normal mx ex lx k Hk Hm Hlo) as (mrs1 & -> & H1).
  set (m2 := round_nearest_even (shr_m mrs1) (loc_of_shr_record mrs1)).
  assert (H2 : shr_m mrs1 <= m2 <= shr_m mrs1 + 1).
  { subst m2. unfold round_nearest_even.
    destruct (loc_of_shr_record mrs1) as [|[| |]]; try lia.
    destruct (Z.even (shr_m mrs1)); lia. }
  assert (Hk2 : exists k2, 0 <= k2 <= 1 /\ 2 ^ (23 + k2) <= m2 < 2 ^ (24 + k2)).
  { change (2 ^ 23) with 8388608 in H1. change (2 ^ 24) with 16777216 in H1.
    destruct (Z.ltb_spec m2 16777216).
    - exists 0. simpl. lia.
    - exists 1. simpl. lia. }
  destruct Hk2 as (k2 & Hk2 & Hm2).
  destruct (shr_fexp_normal m2 (ex + k) loc_Exact k2 ltac:(lia) Hm2 ltac:(lia))
    as (mrs2 & -> & H3).
  change (2 ^ 23) with 8388608 in H3. change (2 ^ 24) with 16777216 in H3.
  destruct (shr_m mrs2) as [|p|p] eqn:Ep; try lia.
  replace (ex + k + k2 <=? emax - prec) with true
    by (symmetry; apply Z.leb_le; unfold emax, prec; lia).
  simpl. split; [|lia].
  apply digits2_pos_unique; [reflexivity|]. simpl. lia.
Qed.

Lemma normal_weaken x lo hi lo' hi' :
  normal x lo hi -> lo' <= lo -> hi <= hi' -> normal x lo' hi'.
Proof. destruct x; simpl; try tauto. intros [Hd He] Hlo Hhi. split; [exact Hd|lia]. Qed.

Lemma normal_mantissa s m e lo hi :
  normal (S754_finite s m e) lo hi -> 2 ^ 23 <= Z.pos m < 2 ^ 24.
Proof.
  intros [Hd _]. pose proof (digits2_pos_bounds m) as H.
  rewrite Hd in H. exact H.
Qed.

Lemma div_normal x y lo1 hi1 lo2 hi2 :
  normal x lo1 hi1 -> normal y lo2 hi2 ->
  -149 <= lo1 - hi2 - 24 -> hi1 - lo2 - 22 <= 104 ->
  normal (div x y) (lo1 - hi2 - 24) (hi1 - lo2 - 22).
Proof.
  destruct x as [| | |sx mx ex]; try contradiction.
  destruct y as [| | |sy my ey]; try contradiction.
  intros Hx Hy Hlo Hhi.
  pose proof (normal_mantissa _ _ _ _ _ Hx) as Mx.
  pose proof (normal_mantissa _ _ _ _ _ Hy) as My.
  destruct Hx as [Dx Ex]. destruct Hy as [Dy Ey].
  change (2 ^ 23) with 8388608 in Mx, My.
  change (2 ^ 24) with 16777216 in Mx, My.
  unfold div, SFdiv, SFdiv_core_binary. cbn [Zdigits2].
  rewrite Dx, Dy.
  replace (Z.min (fexp prec emax (prec + ex - (prec + ey))) (ex - ey))
    with (ex - ey - 24) by (unfold fexp, emin, prec, emax; lia).
  replace (ex - ey - (ex - ey - 24)) with 24 by lia.
  cbv iota. rewrite Z.shiftl_mul_pow2 by lia.
  change (2 ^ 24) with 16777216.
  pose proof (Z.div_eucl_eq (Z.pos mx * 16777216) (Z.pos my) ltac:(lia)) as Hq.
  pose proof (Z.mod_pos_bound (Z.pos mx * 16777216) (Z.pos my) ltac:(lia)) as Hr.
  unfold Z.modulo in Hr.
  destruct (Z.div_eucl (Z.pos mx * 16777216) (Z.pos my)) as [q r].
  assert (Hqb : 8388608 <= q < 33554432) by nia.
  assert (Hk : exists k, 0 <= k <= 1 /\ 2 ^ (23 + k) <= q < 2 ^ (24 + k)).
  { destruct (Z.ltb_spec q 16777216).
    - exists 0. simpl. lia.
    - exists 1. simpl. lia. }
  destruct Hk as (k & Hk & Hqk).
  eapply normal_weaken.
  - apply (binary_round_aux_normal _ q (ex - ey - 24) _ k); lia.
  - lia.
  - lia.
Qed.

Lemma Pos_iter_xO p q : Z.pos (Pos.iter xO p q) = Z.pos p * 2 ^ Z.pos q.
Proof.
  induction q as [|q IH] using Pos.peano_ind.
  - simpl. lia.
  - rewrite Pos.iter_succ, Pos2Z.inj_xO, IH, Pos2Z.inj_succ, Z.pow_succ_r by lia.
    lia.
Qed.

Lemma of_int_normal z :
  z <> 0 -> - 2 ^ 63 < z < 2 ^ 63 -> normal (of_int z) (-23) 40.
Proof.
  intros Hz Hb.
  assert (Hp : forall s p, Z.pos p < 2 ^ 63 ->
                           normal (binary_round prec emax s p 0) (-23) 40).
  { intros s p Hp. unfold binary_round.
    pose proof (digits2_pos_bounds p) as D.
    set (d := Z.pos (digits2_pos p)) in *.
    assert (Hd : 1 <= d <= 63).
    { split; [subst d; lia|].
      assert (d - 1 < 63) by (apply (Z.pow_lt_mono_r_iff 2); lia). lia. }
    replace (fexp prec emax (d + 0)) with (d - 24)
      by (unfold fexp, emin, prec, emax; lia).
    unfold shl_align.
    destruct (d - 24 - 0) as [|q|q] eqn:Eq.
    - eapply normal_weaken.
      + apply (binary_round_aux_normal s (Z.pos p) 0 loc_Exact (d - 24));
          try lia.
        replace (23 + (d - 24)) with (d - 1) by lia.
        replace (24 + (d - 24)) with d by lia. exact D.
      + lia.
      + lia.
    - eapply normal_weaken.
      + apply (binary_round_aux_normal s (Z.pos p) 0 loc_Exact (d - 24));
          try lia.
        replace (23 + (d - 24)) with (d - 1) by lia.
        replace (24 + (d - 24)) with d by lia. exact D.
      + lia.
      + lia.
    - eapply normal_weaken.
      + apply (binary_round_aux_normal s (Z.pos (Pos.iter xO p q)) (d - 24)
                                       loc_Exact 0); try lia.
        rewrite Pos_iter_xO, !Z.add_0_r.
        assert (Hq : Z.pos q = 24 - d) by lia. rewrite Hq.
        assert (E1 : 2 ^ 23 = 2 ^ (d - 1) * 2 ^ (24 - d))
          by (rewrite <- Z.pow_add_r by lia; f_equal; lia).
        assert (E2 : 2 ^ 24 = 2 ^ d * 2 ^ (24 - d))
          by (rewrite <- Z.pow_add_r by lia; f_equal; lia).
        assert (0 < 2 ^ (24 - d)) by (apply Z.pow_pos_nonneg; lia).
        rewrite E1, E2. split.
        -- apply Z.mul_le_mono_nonneg_r; lia.
        -- apply Z.mul_lt_mono_pos_r; lia.
      + lia.
      + lia. }
  unfold of_int, binary_normalize.
  destruct z as [|p|p]; [congruence| |]; apply Hp; lia.
Qed.

Lemma normal_finite x lo hi :
  normal x lo hi ->
  is_finite x = true /\ is_zero x = false /\ is_nan x = false /\ is_inf x = false.
Proof. destruct x; simpl; try contradiction. auto. Qed.

(** Rounding an exact 24-bit mantissa changes nothing. *)
Lemma shr_fexp_exact m e :
  2 ^ 23 <= m < 2 ^ 24 -> -149 <= e ->
  shr_fexp prec emax m e loc_Exact = (Build_shr_record m false false, e).
Proof.
  intros Hm He. unfold shr_fexp.
  rewrite (Zdigits2_unique m 24) by (try lia; exact Hm).
  replace (fexp prec emax (24 + e) - e) with 0
    by (unfold fexp, emin, prec, emax; lia).
  reflexivity.
Qed.

Lemma binary_round_aux_exact s m e :
  2 ^ 23 <= Z.pos m < 2 ^ 24 -> -149 <= e <= 104 ->
  binary_round_aux prec emax s (Z.pos m) e loc_Exact = S754_finite s m e.
Proof.
  intros Hm He. unfold binary_round_aux.
  rewrite shr_fexp_exact by (try lia; exact Hm).
  cbn [shr_m loc_of_shr_record round_nearest_even].
  rewrite shr_fexp_exact by (try lia; exact Hm).
  cbn [shr_m].
  replace (e <=? emax - prec) with true
    by (symmetry; apply Z.leb_le; unfold emax, prec; lia).
  reflexivity.
Qed.

(** Shifting out zero bits is exact. *)
Lemma shr_1_exact m :
  0 <= m -> m mod 2 = 0 ->
  shr_1 (Build_shr_record m false false) = Build_shr_record (m / 2) false false.
Proof.
  intros Hm He. destruct m as [|p|p]; try lia; [reflexivity|].
  destruct p as [p|p|]; simpl.
  - rewrite Pos2Z.inj_xI in He.
    replace (2 * Z.pos p + 1) with (1 + Z.pos p * 2) in He by lia.
    rewrite Z.mod_add in He by lia. discriminate.
  - f_equal. rewrite Pos2Z.inj_xO. apply (Z.div_unique _ 2 _ 0); lia.
  - discriminate.
Qed.

Lemma iter_pos_shr_1_exact p : forall m,
  0 <= m -> m mod 2 ^ Z.pos p = 0 ->
  iter_pos shr_1 p (Build_shr_record m false false) =
    Build_shr_record (m / 2 ^ Z.pos p) false false.
Proof.
  induction p as [p IH|p IH|]; intros m Hm Hd; cbn [iter_pos].
  - assert (Hp : 0 < 2 ^ Z.pos p) by (apply Z.pow_pos_nonneg; lia).
    assert (E : 2 ^ Z.pos p~1 = 2 * (2 ^ Z.pos p * 2 ^ Z.pos p)).
    { rewrite Pos2Z.inj_xI, <- Z.pow_add_r by lia.
      change 2 with (2 ^ 1) at 3. rewrite <- Z.pow_add_r by lia.
      f_equal. lia. }
    rewrite E in Hd |- *. set (P := 2 ^ Z.pos p) in *.
    apply Z.mod_divide in Hd; [|lia]. destruct Hd as [c Hc].
    assert (Hc0 : 0 <= c) by nia.
    assert (E1 : m / 2 = c * P * P)
      by (symmetry; apply Z.div_unique_exact; lia).
    assert (E2 : c * P * P / P = c * P) by (apply Z.div_mul; lia).
    assert (E3 : c * P / P = c) by (apply Z.div_mul; lia).
    assert (E4 : m / (2 * (P * P)) = c)
      by (symmetry; apply Z.div_unique_exact; lia).
    rewrite shr_1_exact;
      [|lia|rewrite Hc; replace (c * (2 * (P * P))) with (c * P * P * 2) by lia;
            apply Z.mod_mul; lia].
    rewrite E1, IH; [|nia|apply Z.mod_mul; lia].
    rewrite E2, IH; [|nia|apply Z.mod_mul; lia].
    now rewrite E3, E4.
  - assert (Hp : 0 < 2 ^ Z.pos p) by (apply Z.pow_pos_nonneg; lia).
    assert (E : 2 ^ Z.pos p~0 = 2 ^ Z.pos p * 2 ^ Z.pos p).
    { rewrite Pos2Z.inj_xO, <- Z.pow_add_r by lia. f_equal. lia. }
    rewrite E in Hd |- *. set (P := 2 ^ Z.pos p) in *.
    apply Z.mod_divide in Hd; [|lia]. destruct Hd as [c Hc].
    assert (Hc0 : 0 <= c) by nia.
    assert (E1 : m / P = c * P)
      by (symmetry; apply Z.div_unique_exact; lia).
    assert (E3 : c * P / P = c) by (apply Z.div_mul; lia).
    assert (E4 : m / (P * P) = c)
      by (symmetry; apply Z.div_unique_exact; lia).
    rewrite IH;
      [|lia|rewrite Hc; replace (c * (P * P)) with (c * P * P) by lia;
            apply Z.mod_mul; lia].
    rewrite E1, IH; [|nia|apply Z.mod_mul; lia].
    now rewrite E3, E4.
  - apply shr_1_exact; [exact Hm|]. exact Hd.
Qed.

Lemma pow2_split a b : 0 <= a -> 0 <= b -> 2 ^ (a + b) = 2 ^ a * 2 ^ b.
Proof. intros. apply Z.pow_add_r; lia. Qed.

(** An integer of at most 24 bits, scaled by a power of two, is rounded to
    itself whatever the exponent it is presented with. *)
Lemma binary_normalize_representable p j e :
  let d := Z.pos (digits2_pos p) in
  d <= 24 -> 0 <= j -> -149 <= d + e - 24 <= 104 ->
  exists m,
    Z.pos m = Z.pos p * 2 ^ (24 - d) /\
    binary_normalize prec emax (Z.pos p * 2 ^ j) (e - j) false =
      S754_finite false m (d + e - 24).
Proof.
  intros d Hd Hj He.
  pose proof (digits2_pos_bounds p) as D. fold d in D.
  assert (Hd1 : 1 <= d) by (subst d; lia).
  assert (Pj : 0 < 2 ^ j) by (apply Z.pow_pos_nonneg; lia).
  assert (Pd : 0 < 2 ^ (24 - d)) by (apply Z.pow_pos_nonneg; lia).
  assert (B : 2 ^ 23 <= Z.pos p * 2 ^ (24 - d) < 2 ^ 24).
  { assert (E1 : 2 ^ 23 = 2 ^ (d - 1) * 2 ^ (24 - d))
      by (rewrite <- pow2_split by lia; f_equal; lia).
    assert (E2 : 2 ^ 24 = 2 ^ d * 2 ^ (24 - d))
      by (rewrite <- pow2_split by lia; f_equal; lia).
    rewrite E1, E2. split.
    - apply Z.mul_le_mono_nonneg_r; lia.
    - apply Z.mul_lt_mono_pos_r; lia. }
  destruct (Z.pos p * 2 ^ j) as [|q|q] eqn:Eq0; try lia.
  assert (Eq : Z.pos q = Z.pos p * 2 ^ j) by (symmetry; exact Eq0).
  clear Eq0.
  assert (Dq : Z.pos (digits2_pos q) = d + j).
  { apply digits2_pos_unique; [lia|]. rewrite Eq.
    replace (d + j - 1) with ((d - 1) + j) by lia.
    rewrite !pow2_split by lia. split.
    - apply Z.mul_le_mono_nonneg_r; lia.
    - apply Z.mul_lt_mono_pos_r; lia. }
  unfold binary_normalize, binary_round. rewrite Dq.
  replace (fexp prec emax (d + j + (e - j))) with (d + e - 24)
    by (unfold fexp, emin, prec, emax; lia).
  unfold shl_align.
  destruct (d + e - 24 - (e - j)) as [|t|t] eqn:Et.
  - (* already 24 bits *)
    assert (j = 24 - d) by lia. subst j.
    exists q. split; [exact Eq|].
    replace (e - (24 - d)) with (d + e - 24) by lia.
    apply binary_round_aux_exact; [rewrite Eq; exact B|lia].
  - (* more than 24 bits: the low bits are zero *)
    assert (Ht : Z.pos t = d + j - 24) by lia.
    assert (Pt : 0 < 2 ^ Z.pos t) by (apply Z.pow_pos_nonneg; lia).
    assert (Eq' : Z.pos q = Z.pos p * 2 ^ (24 - d) * 2 ^ Z.pos t).
    { rewrite Eq, <- Z.mul_assoc, <- pow2_split by lia. do 2 f_equal. lia. }
    destruct (Z.pos p * 2 ^ (24 - d)) as [|m|m] eqn:Em; try lia.
    exists m. split; [reflexivity|].
    unfold binary_round_aux, shr_fexp at 1. cbn [Zdigits2]. rewrite Dq.
    replace (fexp prec emax (d + j + (e - j)) - (e - j)) with (Z.pos t)
      by (unfold fexp, emin, prec, emax; lia).
    cbn [shr_record_of_loc shr].
    rewrite iter_pos_shr_1_exact by (rewrite ?Eq'; try lia; apply Z.mod_mul; lia).
    rewrite Eq', Z.div_mul by lia.
    cbn [shr_m loc_of_shr_record round_nearest_even].
    rewrite shr_fexp_exact by lia.
    cbn [shr_m].
    replace (e - j + Z.pos t <=? emax - prec) with true
      by (symmetry; apply Z.leb_le; unfold emax, prec; lia).
    f_equal. lia.
  - (* fewer than 24 bits: pad with zeros *)
    assert (Ht : Z.pos t = 24 - d - j) by lia.
    exists (Pos.iter xO q t). split.
    + rewrite Pos_iter_xO, Eq, Ht.
      rewrite <- Z.mul_assoc, <- pow2_split by lia. do 2 f_equal. lia.
    + apply binary_round_aux_exact; [|lia].
      rewrite Pos_iter_xO, Eq, Ht.
      rewrite <- Z.mul_assoc, <- pow2_split by lia.
      replace (j + (24 - d - j)) with (24 - d) by lia. exact B.
Qed.

(** The conversion of a positive integer below [2^24] is exact. *)
Lemma of_int_small p :
  Z.pos p < 2 ^ 24 ->
  exists m,
    Z.pos m = Z.pos p * 2 ^ (24 - Z.pos (digits2_pos p)) /\
    of_int (Z.pos p) =
      S754_finite false m (Z.pos (digits2_pos p) - 24).
Proof.
  intros Hp. pose proof (digits2_pos_bounds p) as D.
  assert (Hd : Z.pos (digits2_pos p) <= 24).
  { assert (Z.pos (digits2_pos p) - 1 < 24)
      by (apply (Z.pow_lt_mono_r_iff 2); lia). lia. }
  destruct (binary_normalize_representable p 0 0 Hd ltac:(lia) ltac:(lia))
    as (m & Hm & E).
  exists m. split; [exact Hm|].
  unfold of_int. rewrite Z.mul_1_r in E. simpl (0 - 0) in E.
  rewrite E. f_equal; lia.
Qed.

(** [++samples] on a [float] that holds an integer below [2^24 - 1] gives
    the next integer. *)
Lemma float_incr_of_int k :
  0 <= k -> k + 1 < 2 ^ 24 -> float_incr (of_int k) = of_int (k + 1).
Proof.
  intros Hk Hk1. destruct k as [|p|p]; [reflexivity| |lia].
  destruct (of_int_small p ltac:(lia)) as (m & Hm & ->).
  pose proof (digits2_pos_bounds p) as D.
  set (d := Z.pos (digits2_pos p)) in *.
  assert (Hd : 1 <= d <= 24).
  { split; [subst d; lia|].
    assert (d - 1 < 24) by (apply (Z.pow_lt_mono_r_iff 2); lia). lia. }
  (* the two mantissas at the common exponent -23 *)
  unfold float_incr, add.
  change one with (S754_finite false 8388608 (-23)).
  cbn [SFadd cond_Zopp].
  replace (Z.min (d - 24) (-23)) with (-23) by lia.
  assert (Ex : Z.pos (fst (shl_align m (d - 24) (-23))) = Z.pos p * 2 ^ 23).
  { unfold shl_align. destruct (-23 - (d - 24)) as [|t|t] eqn:Et; cbn [fst].
    - rewrite Hm. do 2 f_equal. lia.
    - lia.
    - rewrite Pos_iter_xO, Hm, <- Z.mul_assoc, <- pow2_split by lia.
      do 2 f_equal. lia. }
  assert (E1 : Z.pos (fst (shl_align 8388608 (-23) (-23))) = 2 ^ 23)
    by reflexivity.
  rewrite Ex, E1.
  replace (Z.pos p * 2 ^ 23 + 2 ^ 23) with (Z.pos (p + 1) * 2 ^ 23) by lia.
  (* both sides are the same representable integer *)
  pose proof (digits2_pos_bounds (p + 1)) as D'.
  assert (Hd' : Z.pos (digits2_pos (p + 1)) <= 24).
  { assert (Z.pos (digits2_pos (p + 1)) - 1 < 24)
      by (apply (Z.pow_lt_mono_r_iff 2); lia). lia. }
  destruct (binary_normalize_representable (p + 1) 23 0 Hd' ltac:(lia)
              ltac:(lia)) as (m1 & Hm1 & R1).
  simpl (0 - 23) in R1. rewrite R1.
  replace (Z.pos p + 1) with (Z.pos (p + 1)) by lia.
  destruct (of_int_small (p + 1) ltac:(lia)) as (m2 & Hm2 & ->).
  f_equal; lia.
Qed.

(** The [float] counter of the [CountSamples] block holds the number of
    counted samples, up to [2^24 - 1] of them. *)
Lemma counted_of_int k : 0 <= k < 2 ^ 24 -> counted k = of_int k.
Proof.
  intros Hk. unfold counted.
  assert (H : forall n, Z.of_nat n < 2 ^ 24 ->
                        Nat.iter n float_incr zero = of_int (Z.of_nat n)).
  { induction n as [|n IH]; intros Hn; [reflexivity|].
    rewrite Nat.iter_succ, IH, float_incr_of_int by lia. f_equal. lia. }
  rewrite H by lia. f_equal. lia.
Qed.


(** ** The scanning loop *)

Lemma backward_scan_spec {C : Type} (incr : C -> C) now w s :
  forall n c i c',
    backward_scan incr now w s n c = (i, c') ->
    -1 <= i < Z.of_nat n /\
    (0 <= i -> too_old now w (at_index s i) = true) /\
    (forall j, i < j < Z.of_nat n -> too_old now w (at_index s j) = false) /\
    c' = Nat.iter (Z.to_nat (Z.of_nat n - 1 - i)) incr c.
Proof.
  induction n as [|k IH]; intros c i c' H; simpl in H.
  - inversion H; subst. repeat split; lia.
  - destruct (too_old now w (nth k s 0)) eqn:Hk.
    + inversion H; subst. repeat split; try lia.
      * intros _. unfold at_index. now rewrite Nat2Z.id.
      * replace (Z.of_nat (S k) - 1 - Z.of_nat k) with 0 by lia. reflexivity.
    + apply IH in H. destruct H as (Hi & Hold & Hin & Hc).
      repeat split; try lia; auto.
      * intros j Hj. destruct (Z.eq_dec j (Z.of_nat k)) as [->|Hne].
        -- unfold at_index. now rewrite Nat2Z.id.
        -- apply Hin. lia.
      * subst c'.
        replace (Z.to_nat (Z.of_nat (S k) - 1 - i))
          with (S (Z.to_nat (Z.of_nat k - 1 - i))) by lia.
        now rewrite Nat.iter_succ_r.
Qed.

Lemma iter_succ_from_zero n : Nat.iter n Z.succ 0 = Z.of_nat n.
Proof. induction n as [|n IH]; simpl; [reflexivity|]. rewrite IH. lia. Qed.

(** ** How a query ends *)

Lemma FPS_empty now g e w soft method :
  m_sample_times e = [] ->
  FPS now g e w soft method = Insufficient g e.
Proof. intros H. unfold FPS. rewrite H. reflexivity. Qed.

Lemma FPS_nonempty now g e w soft method :
  m_sample_times e <> [] ->
  FPS now g e w soft method =
    if method =? CountSamples then FPS_CountSamples now g e w soft
    else if method =? AverageIntervals then FPS_AverageIntervals now g e w soft
    else Throws g e.
Proof.
  intros H. unfold FPS.
  destruct (m_sample_times e) as [|t s]; [congruence|].
  reflexivity.
Qed.

Lemma FPS_nonempty_CountSamples now g e w soft :
  m_sample_times e <> [] ->
  FPS now g e w soft CountSamples = FPS_CountSamples now g e w soft.
Proof. intros H. now rewrite FPS_nonempty. Qed.

Lemma FPS_nonempty_AverageIntervals now g e w soft :
  m_sample_times e <> [] ->
  FPS now g e w soft AverageIntervals = FPS_AverageIntervals now g e w soft.
Proof. intros H. now rewrite FPS_nonempty. Qed.

(** A query that ends at a [return -1.f] has changed nothing. *)
Lemma FPS_Insufficient_inv now g e w soft method g' e' :
  FPS now g e w soft method = Insufficient g' e' -> g' = g /\ e' = e.
Proof.
  unfold FPS, FPS_CountSamples, FPS_AverageIntervals.
  repeat match goal with
         | |- context [if ?b then _ else _] => destruct b
         | |- context [let '(_, _) := ?p in _] => destruct p
         | |- context [match ?x with Some _ => _ | None => _ end] => destruct x
         end;
    intros H; inversion H; auto.
Qed.

(** A query that ends at the [throw] has changed nothing. *)
Lemma FPS_Throws_inv now g e w soft method g' e' :
  FPS now g e w soft method = Throws g' e' -> g' = g /\ e' = e.
Proof.
  unfold FPS, FPS_CountSamples, FPS_AverageIntervals.
  repeat match goal with
         | |- context [if ?b then _ else _] => destruct b
         | |- context [let '(_, _) := ?p in _] => destruct p
         | |- context [match ?x with Some _ => _ | None => _ end] => destruct x
         end;
    intros H; inversion H; auto.
Qed.

(** ** The two blocks of [FPS] *)

Lemma backward_scan_stops_at {C : Type} (incr : C -> C) now w s c i c' :
  backward_scan incr now w s (length s) c = (i, c') ->
  stops_at now w s i /\
  c' = Nat.iter (Z.to_nat (Z.of_nat (length s) - 1 - i)) incr c.
Proof.
  intros H. apply backward_scan_spec in H.
  destruct H as (Hi & Hold & Hin & Hc). repeat split; auto; lia.
Qed.

(** The index at which the scan stops is determined by the samples. *)
Lemma stops_at_unique now w s i i' :
  stops_at now w s i -> stops_at now w s i' -> i = i'.
Proof.
  intros (Hi & Hold & Hin) (Hi' & Hold' & Hin').
  destruct (Z.lt_trichotomy i i') as [Hlt|[Heq|Hgt]]; [|exact Heq|].
  - assert (Ht : too_old now w (at_index s i') = true) by (apply Hold'; lia).
    rewrite Hin in Ht by lia. discriminate.
  - assert (Ht : too_old now w (at_index s i) = true) by (apply Hold; lia).
    rewrite Hin' in Ht by lia. discriminate.
Qed.

Lemma stops_at_backward_scan {C : Type} (incr : C -> C) now w s c i :
  stops_at now w s i ->
  backward_scan incr now w s (length s) c =
    (i, Nat.iter (Z.to_nat (Z.of_nat (length s) - 1 - i)) incr c).
Proof.
  intros Hs.
  destruct (backward_scan incr now w s (length s) c) as [i' c'] eqn:E.
  apply backward_scan_stops_at in E. destruct E as [Hs' ->].
  now rewrite (stops_at_unique _ _ _ _ _ Hs Hs').
Qed.



(** With an index of at least [1], as the [CountSamples] block has it, the
    block that discards old samples is defined. *)
Lemma discard_old_samples_defined cleanup s i :
  1 <= i <= Z.of_nat (length s) ->
  discard_old_samples cleanup s i =
    Some (if cleanup + 1 >=? 1000
          then (0, skipn (Z.to_nat (i - 1)) s)
          else (cleanup + 1, s)).
Proof.
  intros Hi. unfold discard_old_samples, erase_front.
  destruct (cleanup + 1 >=? 1000); [|reflexivity].
  replace (0 <=? i - 1) with true by (symmetry; apply Z.leb_le; lia).
  replace (i - 1 <=? Z.of_nat (length s)) with true
    by (symmetry; apply Z.leb_le; lia).
  reflexivity.
Qed.

(** Without the pruning the same holds for index [0]. *)
Lemma discard_old_samples_no_cleanup cleanup s i :
  cleanup + 1 < 1000 ->
  discard_old_samples cleanup s i = Some (cleanup + 1, s).
Proof.
  intros Hc. unfold discard_old_samples.
  replace (cleanup + 1 >=? 1000) with false; [reflexivity|].
  symmetry. rewrite Z.geb_leb. apply Z.leb_gt. lia.
Qed.

(** The [CountSamples] block, read off the index where the scan stops. *)
Lemma FPS_CountSamples_stops_at now g e w soft i :
  stops_at now w (m_sample_times e) i ->
  FPS_CountSamples now g e w soft =
    if i <=? 0 then Insufficient g e
    else
      match discard_old_samples (cleanup_CountSamples g) (m_sample_times e) i
      with
      | None => Undefined
      | Some (cleanup', s') =>
          let rolling' :=
            add (mul (m_decay_factor e) (m_rolling e))
                (div (mul (sub one (m_decay_factor e))
                          (counted (Z.of_nat (length (m_sample_times e)) - 1 - i)))
                     w) in
          Estimate (if soft then rolling'
                    else count_rate w (m_sample_times e) i)
                   (mkStatics cleanup' (cleanup_AverageIntervals g))
                   (mkFPSEstimator s' rolling' (m_decay_factor e))
      end.
Proof.
  intros Hs. unfold FPS_CountSamples.
  rewrite (stops_at_backward_scan float_incr now w _ zero i Hs).
  reflexivity.
Qed.

(** The [AverageIntervals] block, read off the index where the scan stops. *)
Lemma FPS_AverageIntervals_stops_at now g e w soft i :
  stops_at now w (m_sample_times e) i ->
  FPS_AverageIntervals now g e w soft =
    if i <? 0 then Insufficient g e
    else
      match discard_old_samples (cleanup_AverageIntervals g)
                                (m_sample_times e) i
      with
      | None => Undefined
      | Some (cleanup', s') =>
          let rolling' :=
            add (mul (m_decay_factor e) (m_rolling e))
                (mul (sub one (m_decay_factor e))
                     (interval_rate (m_sample_times e) i)) in
          Estimate (if soft then rolling'
                    else interval_rate (m_sample_times e) i)
                   (mkStatics (cleanup_CountSamples g) cleanup')
                   (mkFPSEstimator s' rolling' (m_decay_factor e))
      end.
Proof.
  intros Hs. unfold FPS_AverageIntervals.
  rewrite (stops_at_backward_scan Z.succ now w _ 0 i Hs).
  rewrite iter_succ_from_zero.
  destruct Hs as (Hi & _).
  rewrite Z2Nat.id by lia.
  reflexivity.
Qed.

(** Every history has an index where the scan stops. *)
Lemma stops_at_exists now w s : exists i, stops_at now w s i.
Proof.
  destruct (backward_scan Z.succ now w s (length s) 0) as [i c] eqn:E.
  exists i. now apply backward_scan_stops_at in E.
Qed.

(** ** Successful queries *)

(** What is known when a query returns an estimate. *)
Lemma FPS_Estimate_inv now g e w soft method v g' e' :
  FPS now g e w soft method = Estimate v g' e' ->
  let s := m_sample_times e in
  exists i,
    stops_at now w s i /\ 0 <= i /\
    m_decay_factor e' = m_decay_factor e /\
    ((method = CountSamples /\ 1 <= i /\
      discard_old_samples (cleanup_CountSamples g) s i =
        Some (cleanup_CountSamples g', m_sample_times e') /\
      cleanup_AverageIntervals g' = cleanup_AverageIntervals g /\
      m_rolling e' =
        add (mul (m_decay_factor e) (m_rolling e))
            (div (mul (sub one (m_decay_factor e))
                      (counted (Z.of_nat (length s) - 1 - i))) w) /\
      v = if soft then m_rolling e' else count_rate w s i)
     \/
     (method = AverageIntervals /\
      discard_old_samples (cleanup_AverageIntervals g) s i =
        Some (cleanup_AverageIntervals g', m_sample_times e') /\
      cleanup_CountSamples g' = cleanup_CountSamples g /\
      m_rolling e' =
        spec_rolling (m_decay_factor e) (m_rolling e) (interval_rate s i) /\
      v = if soft then m_rolling e' else interval_rate s i)).
Proof.
  intros H s.
  destruct (stops_at_exists now w s) as [i Hs]. exists i.
  split; [exact Hs|].
  destruct (m_sample_times e) as [|t0 s0] eqn:Es.
  { rewrite FPS_empty in H by exact Es. discriminate. }
  rewrite FPS_nonempty in H by (rewrite Es; discriminate).
  destruct (method =? CountSamples) eqn:Hc.
  - apply Z.eqb_eq in Hc.
    rewrite (FPS_CountSamples_stops_at now g e w soft i) in H
      by (rewrite Es; exact Hs).
    destruct (i <=? 0) eqn:Hi; [discriminate|]. apply Z.leb_gt in Hi.
    rewrite Es in H. fold s in H.
    destruct (discard_old_samples (cleanup_CountSamples g) s i)
      as [[c' s']|] eqn:Hd; [|discriminate].
    inversion H; subst v g' e'; simpl.
    split; [lia|]. split; [reflexivity|]. left.
    repeat split; auto. lia.
  - destruct (method =? AverageIntervals) eqn:Ha; [|discriminate].
    apply Z.eqb_eq in Ha.
    rewrite (FPS_AverageIntervals_stops_at now g e w soft i) in H
      by (rewrite Es; exact Hs).
    destruct (i <? 0) eqn:Hi; [discriminate|]. apply Z.ltb_ge in Hi.
    rewrite Es in H. fold s in H.
    destruct (discard_old_samples (cleanup_AverageIntervals g) s i)
      as [[c' s']|] eqn:Hd; [|discriminate].
    inversion H; subst v g' e'; simpl.
    split; [lia|]. split; [reflexivity|]. right.
    repeat split; auto.
Qed.


(** C1, as the code has it.  Take an [AverageIntervals] query that returns
    an estimate while the most recent sample is inside the window.  The scan
    has stopped at an index [i] whose sample is outside the window, all
    samples behind [i] being inside.  The instantaneous estimate is [1e6f]
    over the average interval, and that average is the time from the sample
    at [i], the newest one outside the window, to the most recent sample,
    divided by the number of samples inside the window.  The query returns
    this estimate, or the rolling value updated with it when [soft_estimate]
    is set. *)
Theorem AverageIntervals_rate now g e w soft v g' e' :
  let s := m_sample_times e in
  let n := Z.of_nat (length s) in
  FPS now g e w soft AverageIntervals = Estimate v g' e' ->
  too_old now w (at_index s (n - 1)) = false ->
  exists i,
    0 <= i < n - 1 /\
    too_old now w (at_index s i) = true /\
    (forall j, i < j < n -> too_old now w (at_index s j) = false) /\
    let samples := n - 1 - i in
    let average_interval :=
      div (NanosecondsBetween (at_index s (n - 1)) (at_index s i))
          (of_int samples) in
    let instantaneous := div f1e6 average_interval in
    m_rolling e' =
      add (mul (m_decay_factor e) (m_rolling e))
          (mul (sub one (m_decay_factor e)) instantaneous) /\
    v = if soft then m_rolling e' else instantaneous.
Proof.
  intros s n H Hlast. apply FPS_Estimate_inv in H.
  destruct H as (i & (Hi & Hold & Hin) & Hi0 & _ & [Hc|Ha]).
  - destruct Hc as [Hc _]. discriminate.
  - destruct Ha as (_ & _ & _ & Hr & Hv).
    unfold spec_rolling, interval_rate in Hr, Hv. fold s n in Hr, Hv.
    assert (Hne : i <> n - 1).
    { intros ->. specialize (Hold Hi0). fold s in Hold.
      rewrite Hold in Hlast. discriminate. }
    exists i. repeat split; auto; unfold n, s in *; lia.
Qed.

Lemma AverageIntervals_rate_witness :
  let s := [0; 1000 * ms; 1500 * ms] in
  exists i,
    0 <= i < 3 - 1 /\
    too_old (1600 * ms) one (at_index s i) = true /\
    (forall j, i < j < 3 -> too_old (1600 * ms) one (at_index s j) = false) /\
    let samples := 3 - 1 - i in
    let average_interval :=
      div (NanosecondsBetween (at_index s (3 - 1)) (at_index s i))
          (of_int samples) in
    let instantaneous := div f1e6 average_interval in
    ratio 4 3 = add (mul zero zero) (mul (sub one zero) instantaneous) /\
    ratio 4 3 = instantaneous.
Proof.
  exact (AverageIntervals_rate
           (1600 * ms) statics_init
           (with_samples [0; 1000 * ms; 1500 * ms] FPSEstimator_new)
           one false (ratio 4 3) (mkStatics 0 1)
           (mkFPSEstimator [0; 1000 * ms; 1500 * ms] (ratio 4 3) zero)
           eq_refl eq_refl).
Defined.

(** C1 as stated fails: with samples at 0 s, 1 s and 1.5 s, queried at 1.6 s
    over a window of one second, the two samples inside the window are 0.5 s
    apart, so the stated rate is [1e6 / (500000 / 2) = 4]; the code measures
    from the sample at 0 s and returns [1e6 / (1500000 / 2) = 4/3]. *)
Lemma AverageIntervals_does_not_start_at_oldest_in_window :
  let s := [0; 1000 * ms; 1500 * ms] in
  let e := with_samples s FPSEstimator_new in
  in_window (1600 * ms) one s = [1000 * ms; 1500 * ms] /\
  spec_AverageIntervals (1600 * ms) one s = of_int 4 /\
  returned (FPS (1600 * ms) statics_init e one false AverageIntervals) =
    Some (ratio 4 3) /\
  ratio 4 3 <> of_int 4.
Proof. vm_compute. repeat split; discriminate. Qed.

(** The literals of the source as normal numbers. *)
Lemma one_normal : normal one (-23) (-23).
Proof.
  change one with (S754_finite false 8388608 (-23)).
  split; [reflexivity|lia].
Qed.

Lemma f1e3_normal : normal f1e3 (-14) (-14).
Proof.
  change f1e3 with (S754_finite false 16384000 (-14)).
  split; [reflexivity|lia].
Qed.

Lemma f1e6_normal : normal f1e6 (-4) (-4).
Proof.
  change f1e6 with (S754_finite false 16000000 (-4)).
  split; [reflexivity|lia].
Qed.

(** The estimate over one interval between two different clock readings is
    a normal number. *)
Lemma one_interval_rate_normal y a :
  y <> a -> in_clock_range y -> in_clock_range a ->
  normal (div f1e6 (div (NanosecondsBetween y a) one)) (-61) 8.
Proof.
  unfold in_clock_range. intros Hne Hy Ha.
  assert (H1 : normal (of_int (y - a)) (-23) 40) by (apply of_int_normal; lia).
  assert (H2 : normal (NanosecondsBetween y a) (-33) 32).
  { apply (div_normal _ f1e3 (-23) 40 (-14) (-14) H1); try lia.
    exact f1e3_normal. }
  assert (H3 : normal (div (NanosecondsBetween y a) one) (-34) 33).
  { apply (div_normal _ one (-33) 32 (-23) (-23) H2); try lia.
    exact one_normal. }
  apply (div_normal f1e6 _ (-4) (-4) (-34) 33 f1e6_normal H3); lia.
Qed.

Lemma at_index_in_clock_range s i :
  Forall in_clock_range s -> 0 <= i < Z.of_nat (length s) ->
  in_clock_range (at_index s i).
Proof.
  intros H Hi. unfold at_index.
  apply (proj1 (Forall_nth in_clock_range s) H). lia.
Qed.

(** C3, as the code has it.  Take an [AverageIntervals] query with exactly
    one sample inside the window, the most recent one, on a history of
    clock readings.  When that sample is the whole history the query
    returns the sentinel.  When an older sample precedes it, no test stops
    the computation: the query returns an estimate (the case in which the
    discarding block is due while the older sample is the first element is
    left aside), the instantaneous estimate is [1e6f] over the interval
    between the two samples divided by one, and it is a finite number
    other than zero, so neither NaN nor an infinity. *)
Theorem AverageIntervals_one_sample_inside now g e w soft :
  let s := m_sample_times e in
  let n := Z.of_nat (length s) in
  Forall in_clock_range s ->
  1 <= n ->
  too_old now w (at_index s (n - 1)) = false ->
  (2 <= n -> too_old now w (at_index s (n - 2)) = true) ->
  (n = 1 -> FPS now g e w soft AverageIntervals = Insufficient g e) /\
  (2 <= n -> 3 <= n \/ cleanup_AverageIntervals g + 1 < 1000 ->
   let instantaneous :=
     div f1e6
         (div (NanosecondsBetween (at_index s (n - 1)) (at_index s (n - 2)))
              one) in
   is_finite instantaneous = true /\ is_zero instantaneous = false /\
   exists g' e',
     FPS now g e w soft AverageIntervals =
       Estimate (if soft then m_rolling e' else instantaneous) g' e' /\
     m_rolling e' =
       add (mul (m_decay_factor e) (m_rolling e))
           (mul (sub one (m_decay_factor e)) instantaneous)).
Proof.
  intros s n Hrange Hn Hlast Hprev.
  assert (Hne : m_sample_times e <> []).
  { intros E. subst n s. rewrite E in Hn. simpl in Hn. lia. }
  split.
  - intros H1.
    assert (Hs : stops_at now w s (-1)).
    { repeat split; try (fold n; lia).
      intros j Hj. fold n in Hj. replace j with (n - 1) by lia. exact Hlast. }
    rewrite FPS_nonempty_AverageIntervals by exact Hne.
    now rewrite (FPS_AverageIntervals_stops_at now g e w soft (-1) Hs).
  - intros H2 Hdue instantaneous.
    assert (Hnormal : normal instantaneous (-61) 8).
    { apply one_interval_rate_normal.
      - intros E. specialize (Hprev H2). rewrite <- E, Hlast in Hprev.
        discriminate.
      - apply at_index_in_clock_range; [exact Hrange|fold n; lia].
      - apply at_index_in_clock_range; [exact Hrange|fold n; lia]. }
    destruct (normal_finite _ _ _ Hnormal) as (Hfin & Hnz & _ & _).
    split; [exact Hfin|]. split; [exact Hnz|].
    assert (Hs : stops_at now w s (n - 2)).
    { repeat split; try (fold n; lia).
      - intros _. now apply Hprev.
      - intros j Hj. fold n in Hj. replace j with (n - 1) by lia.
        exact Hlast. }
    rewrite FPS_nonempty_AverageIntervals by exact Hne.
    rewrite (FPS_AverageIntervals_stops_at now g e w soft (n - 2) Hs).
    replace (n - 2 <? 0) with false by (symmetry; apply Z.ltb_ge; lia).
    assert (Hrate : interval_rate (m_sample_times e) (n - 2) = instantaneous).
    { unfold interval_rate. fold s n.
      replace (n - 1 - (n - 2)) with 1 by lia. reflexivity. }
    rewrite Hrate.
    destruct Hdue as [H3|Hc].
    + rewrite discard_old_samples_defined by (fold s n; lia).
      destruct (cleanup_AverageIntervals g + 1 >=? 1000);
        eexists; eexists (mkFPSEstimator _ _ _); simpl; split; reflexivity.
    + rewrite discard_old_samples_no_cleanup by exact Hc.
      eexists; eexists (mkFPSEstimator _ _ _); simpl; split; reflexivity.
Qed.

Lemma AverageIntervals_one_sample_inside_witness :
  let e := with_samples [0; 1000 * ms] FPSEstimator_new in
  let instantaneous :=
    div f1e6 (div (NanosecondsBetween (1000 * ms) 0) one) in
  is_finite instantaneous = true /\ is_zero instantaneous = false /\
  exists g' e',
    FPS (1100 * ms) statics_init e (ratio 1 2) false AverageIntervals =
      Estimate instantaneous g' e' /\
    m_rolling e' =
      add (mul zero zero) (mul (sub one zero) instantaneous).
Proof.
  intros e.
  refine (proj2 (AverageIntervals_one_sample_inside
                   (1100 * ms) statics_init e (ratio 1 2) false _ _ _ _) _ _).
  - repeat constructor; vm_compute; congruence.
  - vm_compute. discriminate.
  - reflexivity.
  - intros _. reflexivity.
  - vm_compute. discriminate.
  - right. reflexivity.
Defined.

(** C3 as stated fails: with samples at 0 s and 1 s, queried at 1.1 s over
    a window of half a second, one sample is inside the window and the
    query returns the estimate [1], not the sentinel. *)
Lemma AverageIntervals_succeeds_with_one_sample_inside :
  let s := [0; 1000 * ms] in
  let e := with_samples s FPSEstimator_new in
  in_window (1100 * ms) (ratio 1 2) s = [1000 * ms] /\
  returned (FPS (1100 * ms) statics_init e (ratio 1 2) false AverageIntervals)
    = Some one /\
  one <> minus_one /\ lt one zero = false.
Proof. vm_compute. repeat split; discriminate. Qed.

(** C6 fails on the code: one sample, two seconds old, queried over a window
    of one second with [AverageIntervals].  The scan stops at index [0]
    without having counted a sample, the test [i < 0] lets the call
    continue, [0/0] makes the estimate NaN, and NaN is returned and stored
    in [m_rolling].  NaN is not negative. *)
Theorem AverageIntervals_single_old_sample_returns_NaN :
  let e := AddSample 0 FPSEstimator_new in
  FPS (2000 * ms) statics_init e one false AverageIntervals =
    Estimate S754_nan (mkStatics 0 1) (mkFPSEstimator [0] S754_nan zero) /\
  lt S754_nan zero = false /\
  FPS (2000 * ms) statics_init e one false CountSamples =
    Insufficient statics_init e.
Proof. vm_compute. repeat split. Qed.

(** C2 fails on the code: samples at 0, 100, 200, 300 and 400 ms, queried at
    400 ms over a window of 0.35 s with [CountSamples].  The scan counts the
    four samples from 100 ms on and stops at index [0], a sample outside the
    window; the test [i <= 0] then returns the sentinel instead of
    [4/0.35].  With one more sample in front, so that the scan stops at
    index [1], the same four samples give [4/0.35]. *)
Theorem CountSamples_scenario_returns_sentinel :
  let w := ratio 35 100 in
  let e :=
    with_samples [0; 100 * ms; 200 * ms; 300 * ms; 400 * ms] FPSEstimator_new in
  let e1 :=
    with_samples [0; 100 * ms; 200 * ms; 300 * ms; 400 * ms; 500 * ms]
                 FPSEstimator_new in
  backward_scan float_incr (400 * ms) w (m_sample_times e)
                (length (m_sample_times e)) zero = (0, of_int 4) /\
  too_old (400 * ms) w 0 = true /\
  FPS (400 * ms) statics_init e w false CountSamples =
    Insufficient statics_init e /\
  returned (FPS (400 * ms) statics_init e w false CountSamples) =
    Some minus_one /\
  returned (FPS (500 * ms) statics_init e1 w false CountSamples) =
    Some (div (of_int 4) w).
Proof. vm_compute. repeat split. Qed.

(** ** The rolling estimate *)





(** ** Runs: the statics count successful queries *)










(** ** Discarding old samples *)




(** ** The first estimate after construction *)




(** ** Failed queries *)

(** C4.  A query that ends at one of the [return -1.f] statements leaves
    [m_rolling] (indeed the whole instance and both statics) as it was, and
    a call after which [m_rolling] differs from its previous value is a
    query that returned an estimate. *)
Theorem rolling_changes_only_on_success now g e w soft method o :
  FPS now g e w soft method = o ->
  (forall g' e', o = Insufficient g' e' ->
                 m_rolling e' = m_rolling e /\ e' = e /\ g' = g) /\
  (forall e', estimator_after o = Some e' ->
              m_rolling e' <> m_rolling e -> is_estimate o = true).
Proof.
  intros Ho. split.
  - intros g' e' ->. apply FPS_Insufficient_inv in Ho.
    destruct Ho as [-> ->]. auto.
  - intros e' Hafter Hne. destruct o as [g1 e1|v g1 e1|g1 e1|]; simpl in *.
    + apply FPS_Insufficient_inv in Ho. destruct Ho as [_ ->].
      inversion Hafter; subst. congruence.
    + reflexivity.
    + apply FPS_Throws_inv in Ho. destruct Ho as [_ ->].
      inversion Hafter; subst. congruence.
    + discriminate.
Qed.

Lemma rolling_changes_only_on_success_witness :
  let e := with_samples [0; 100 * ms] FPSEstimator_new in
  FPS (100 * ms) statics_init e one true CountSamples =
    Insufficient statics_init e /\
  forall g' e',
    Insufficient statics_init e = Insufficient g' e' ->
    m_rolling e' = m_rolling e /\ e' = e /\ g' = statics_init.
Proof.
  intros e.
  assert (H : FPS (100 * ms) statics_init e one true CountSamples =
              Insufficient statics_init e) by (vm_compute; reflexivity).
  split; [exact H|].
  exact (proj1 (rolling_changes_only_on_success
                  (100 * ms) statics_init e one true CountSamples _ H)).
Defined.

(** ** Unknown methods *)

(** C8, as the code has it.  A query whose [method] is neither enumerator
    reaches the [throw] only when the history is not empty: the test of
    the history's size comes first and returns [-1.f] for every value of
    [method].  The [throw] changes neither the instance nor the statics. *)
Theorem unknown_method_throws_unless_empty now g e w soft method :
  method <> CountSamples -> method <> AverageIntervals ->
  FPS now g e w soft method =
    match m_sample_times e with
    | [] => Insufficient g e
    | _ :: _ => Throws g e
    end.
Proof.
  intros Hc Ha. unfold FPS.
  destruct (m_sample_times e) as [|t s]; [reflexivity|].
  cbn [length]. replace (Z.of_nat (S (length s)) <=? 0) with false
    by (symmetry; apply Z.leb_gt; lia).
  apply Z.eqb_neq in Hc, Ha. now rewrite Hc, Ha.
Qed.

Lemma unknown_method_throws_unless_empty_witness :
  FPS (100 * ms) statics_init (AddSample 0 FPSEstimator_new) one false 2 =
    Throws statics_init (AddSample 0 FPSEstimator_new).
Proof.
  apply (unknown_method_throws_unless_empty
           (100 * ms) statics_init (AddSample 0 FPSEstimator_new) one false 2);
    discriminate.
Defined.

(** C8 as stated fails: on an empty history a query with a method outside
    the enumeration returns the sentinel. *)
Lemma unknown_method_on_empty_history_returns_sentinel :
  2 <> CountSamples /\ 2 <> AverageIntervals /\
  returned (FPS 0 statics_init FPSEstimator_new one false 2) = Some minus_one.
Proof. repeat split; discriminate. Qed.

(** ** [Reset] *)

(** C9.  [Reset] empties the history and keeps [m_rolling] and
    [m_decay_factor]; whatever the clock, the window, the flag and the
    method, the next query ends at the first [return -1.f], a negative
    value, and changes nothing. *)
Theorem Reset_clears_history_only e :
  m_sample_times (Reset e) = [] /\
  m_rolling (Reset e) = m_rolling e /\
  m_decay_factor (Reset e) = m_decay_factor e /\
  forall now g w soft method,
    FPS now g (Reset e) w soft method = Insufficient g (Reset e) /\
    returned (FPS now g (Reset e) w soft method) = Some minus_one /\
    lt minus_one zero = true.
Proof.
  repeat split.
Qed.

(** * Further properties of the code *)

(** ** More facts about the arithmetic: signs and numbers of the format *)

Lemma shr_fexp_nonneg m e l :
  0 <= m -> 0 <= shr_m (fst (shr_fexp prec emax m e l)).
Proof.
  intros H. unfold shr_fexp, shr.
  assert (H0 : 0 <= shr_m (shr_record_of_loc m l))
    by (destruct l as [|[| |]]; exact H).
  destruct (fexp prec emax (Zdigits2 m + e) - e) as [|p|p]; simpl; auto.
  now apply iter_pos_shr_1_nonneg.
Qed.

Lemma round_nearest_even_bounds m l :
  m <= round_nearest_even m l <= m + 1.
Proof.
  unfold round_nearest_even.
  destruct l as [|[| |]]; try lia. destruct (Z.even m); lia.
Qed.

(** Rounding a non-negative mantissa keeps the sign it is given. *)
Lemma binary_round_aux_sign sx mx ex lx :
  0 <= mx -> has_sign sx (binary_round_aux prec emax sx mx ex lx).
Proof.
  intros H. unfold binary_round_aux.
  pose proof (shr_fexp_nonneg mx ex lx H) as H1.
  destruct (shr_fexp prec emax mx ex lx) as [mrs' e'].
  simpl in H1.
  pose proof (round_nearest_even_bounds (shr_m mrs') (loc_of_shr_record mrs'))
    as Hr.
  pose proof (shr_fexp_nonneg
                (round_nearest_even (shr_m mrs') (loc_of_shr_record mrs'))
                e' loc_Exact ltac:(lia)) as H2.
  destruct (shr_fexp prec emax
              (round_nearest_even (shr_m mrs') (loc_of_shr_record mrs'))
              e' loc_Exact) as [mrs'' e''].
  simpl in H2.
  destruct (shr_m mrs'') as [|p|p]; [reflexivity| |lia].
  destruct (e'' <=? emax - prec); reflexivity.
Qed.

Lemma of_int_sign z : has_sign (z <? 0) (of_int z).
Proof.
  unfold of_int, binary_normalize. destruct z as [|p|p]; [reflexivity| |];
    unfold binary_round;
    destruct (shl_align p 0 (fexp prec emax (Z.pos (digits2_pos p) + 0)))
      as [mz ez]; apply binary_round_aux_sign; lia.
Qed.

Lemma SFdiv_core_binary_nonneg m1 e1 m2 e2 :
  0 <= m1 -> 0 < m2 ->
  0 <= fst (fst (SFdiv_core_binary prec emax m1 e1 m2 e2)).
Proof.
  intros H1 H2. unfold SFdiv_core_binary.
  set (s := e1 - e2 - _).
  set (m' := match s with 0 => m1 | Z.pos _ => Z.shiftl m1 s | Z.neg _ => 0 end).
  assert (Hm : 0 <= m').
  { subst m'. destruct s as [|q|q]; try lia. apply Z.shiftl_nonneg. lia. }
  pose proof (Z.div_pos m' m2 Hm H2) as Hq.
  unfold Z.div in Hq.
  destruct (Z.div_eucl m' m2) as [q r]. exact Hq.
Qed.

(** The sign of a quotient, when it is not NaN. *)
Lemma div_sign sx sy x y :
  has_sign sx x -> has_sign sy y ->
  is_zero x && is_zero y = false -> is_inf x && is_inf y = false ->
  has_sign (xorb sx sy) (div x y).
Proof.
  destruct x as [s1|s1| |s1 m1 e1]; destruct y as [s2|s2| |s2 m2 e2];
    simpl; try contradiction; try discriminate;
    intros -> -> _ _; try reflexivity.
  unfold div, SFdiv.
  pose proof (SFdiv_core_binary_nonneg (Z.pos m1) e1 (Z.pos m2) e2
                ltac:(lia) ltac:(lia)) as Hq.
  destruct (SFdiv_core_binary prec emax (Z.pos m1) e1 (Z.pos m2) e2)
    as [[mz ez] lz]. simpl in Hq.
  now apply binary_round_aux_sign.
Qed.

Lemma Zdigits2_bounds m :
  0 < m -> 2 ^ (Zdigits2 m - 1) <= m < 2 ^ Zdigits2 m.
Proof. destruct m as [|p|p]; try lia. intros _. apply digits2_pos_bounds. Qed.

Lemma Zdigits2_pos m : 0 < m -> 0 < Zdigits2 m.
Proof. destruct m as [|p|p]; simpl; lia. Qed.

(** The first step of the rounding: the mantissa is shifted to the exponent
    of the format. *)
Lemma shr_fexp_shift m e l :
  0 <= m -> 0 <= fexp prec emax (Zdigits2 m + e) - e ->
  exists mrs,
    shr_fexp prec emax m e l = (mrs, fexp prec emax (Zdigits2 m + e)) /\
    shr_m mrs = m / 2 ^ (fexp prec emax (Zdigits2 m + e) - e).
Proof.
  intros Hm Hn. unfold shr_fexp.
  assert (H0 : shr_m (shr_record_of_loc m l) = m)
    by (destruct l as [|[| |]]; reflexivity).
  unfold shr.
  destruct (fexp prec emax (Zdigits2 m + e) - e) as [|q|q] eqn:En; [| |lia].
  - eexists. split; [f_equal; lia|]. rewrite H0. simpl. now rewrite Z.div_1_r.
  - eexists. split; [f_equal; lia|].
    rewrite iter_pos_shr_1_m by (rewrite H0; lia). now rewrite H0.
Qed.

Lemma shr_fexp_fits m e l :
  0 <= m -> e <= fexp prec emax (Zdigits2 m + e) ->
  exists mrs,
    shr_fexp prec emax m e l = (mrs, fexp prec emax (Zdigits2 m + e)) /\
    fits_format (shr_m mrs) (fexp prec emax (Zdigits2 m + e)).
Proof.
  intros Hm He.
  destruct (shr_fexp_shift m e l Hm ltac:(lia)) as (mrs & E & Hs).
  exists mrs. split; [exact E|]. rewrite Hs. clear E Hs mrs.
  set (d := Zdigits2 m) in *.
  set (F := fexp prec emax (d + e)) in *.
  assert (HF : F = Z.max (d + e - 24) (-149)) by reflexivity.
  set (n := F - e).
  assert (Hn : 0 <= n) by (subst n; lia).
  assert (Pn : 0 < 2 ^ n) by (apply Z.pow_pos_nonneg; lia).
  destruct (Z.eq_dec m 0) as [->|Hm0].
  { rewrite Z.div_0_l by lia. unfold fits_format.
    split; [simpl; lia|]. split; [lia|]. right.
    subst d. simpl in HF. lia. }
  pose proof (Zdigits2_bounds m ltac:(lia)) as [Dlo Dhi]. fold d in Dlo, Dhi.
  pose proof (Zdigits2_pos m ltac:(lia)) as Dpos. fold d in Dpos.
  unfold fits_format. split; [split|split].
  - apply Z.div_pos; lia.
  - apply Z.div_lt_upper_bound; [lia|].
    rewrite <- pow2_split by lia.
    apply Z.lt_le_trans with (2 ^ d); [exact Dhi|].
    apply Z.pow_le_mono_r; lia.
  - lia.
  - destruct (Z.le_gt_cases (-149) (d + e - 24)) as [Hge|Hlt]; [left|right; lia].
    assert (Hnd : n = d - 24) by (subst n; lia).
    apply Z.div_le_lower_bound; [lia|].
    rewrite <- pow2_split by lia.
    apply Z.le_trans with (2 ^ (d - 1)); [|exact Dlo].
    apply Z.pow_le_mono_r; lia.
Qed.

(** A mantissa that fits the format is not shifted again. *)
Lemma shr_fexp_fits_exact m e :
  0 < m -> fits_format m e ->
  shr_fexp prec emax m e loc_Exact = (Build_shr_record m false false, e) /\
  fexp prec emax (Zdigits2 m + e) = e.
Proof.
  intros Hm ((_ & Hhi) & He & Hcase).
  pose proof (Zdigits2_bounds m Hm) as [Dlo Dhi].
  pose proof (Zdigits2_pos m Hm) as Dpos.
  assert (Hd : Zdigits2 m <= 24).
  { assert (Zdigits2 m - 1 < 24) by (apply (Z.pow_lt_mono_r_iff 2); lia). lia. }
  assert (HF : fexp prec emax (Zdigits2 m + e) = e).
  { unfold fexp, emin, prec, emax. destruct Hcase as [H23|He0]; [|lia].
    assert (23 < Zdigits2 m) by (apply (Z.pow_lt_mono_r_iff 2); lia). lia. }
  split; [|exact HF].
  unfold shr_fexp. rewrite HF, Z.sub_diag. reflexivity.
Qed.

(** What the rounding returns is a number of the format. *)
Lemma binary_round_aux_valid sx mx ex lx :
  0 <= mx -> ex <= fexp prec emax (Zdigits2 mx + ex) ->
  valid_binary prec emax (binary_round_aux prec emax sx mx ex lx) = true.
Proof.
  intros Hm He. unfold binary_round_aux.
  destruct (shr_fexp_fits mx ex lx Hm He) as (mrs1 & -> & Hfit).
  set (F := fexp prec emax (Zdigits2 mx + ex)) in *.
  pose proof (round_nearest_even_bounds (shr_m mrs1) (loc_of_shr_record mrs1))
    as Hr.
  set (m2 := round_nearest_even (shr_m mrs1) (loc_of_shr_record mrs1)) in *.
  destruct Hfit as ((H0 & H24) & HF & Hcase).
  change (2 ^ 24) with 16777216 in H24.
  change (2 ^ 23) with 8388608 in Hcase.
  destruct (Z.eq_dec m2 0) as [E0|Hm2].
  { (* underflow to zero *)
    rewrite E0.
    pose proof (shr_fexp_nonneg 0 F loc_Exact ltac:(lia)) as Hnn.
    assert (Hz : shr_m (fst (shr_fexp prec emax 0 F loc_Exact)) = 0).
    { unfold shr_fexp, shr. simpl Zdigits2.
      destruct (fexp prec emax (0 + F) - F) as [|q|q]; simpl; try reflexivity.
      rewrite iter_pos_shr_1_m by (simpl; lia). simpl. apply Z.div_0_l.
      assert (0 < 2 ^ Z.pos q) by (apply Z.pow_pos_nonneg; lia). lia. }
    destruct (shr_fexp prec emax 0 F loc_Exact) as [mrs2 e2]. simpl in Hz.
    rewrite Hz. reflexivity. }
  destruct (Z.eq_dec m2 16777216) as [E24|Hne].
  { (* the rounding has carried into the next binade *)
    rewrite E24.
    assert (E : shr_fexp prec emax 16777216 F loc_Exact =
                (Build_shr_record 8388608 false false, F + 1)).
    { unfold shr_fexp. simpl Zdigits2.
      replace (fexp prec emax (25 + F) - F) with 1
        by (unfold fexp, emin, prec, emax; lia).
      reflexivity. }
    rewrite E. simpl shr_m.
    destruct (F + 1 <=? emax - prec) eqn:Eb; [|reflexivity].
    simpl. unfold bounded, canonical_mantissa. rewrite Eb, andb_true_r.
    apply Z.eqb_eq. simpl digits2_pos.
    unfold fexp, emin, prec, emax. lia. }
  assert (Hfit2 : fits_format m2 F).
  { unfold fits_format. change (2 ^ 24) with 16777216.
    change (2 ^ 23) with 8388608. lia. }
  destruct (shr_fexp_fits_exact m2 F ltac:(lia) Hfit2) as [-> Hcanon].
  simpl shr_m. destruct m2 as [|p|p]; try lia.
  destruct (F <=? emax - prec) eqn:Eb; [|reflexivity].
  simpl. unfold bounded, canonical_mantissa. rewrite Eb, andb_true_r.
  apply Z.eqb_eq. exact Hcanon.
Qed.

Lemma fexp_ge_emin x : -149 <= fexp prec emax x.
Proof. unfold fexp, emin, prec, emax. lia. Qed.

(** A quotient is a number of the format. *)
Lemma div_valid x y : valid_binary prec emax (div x y) = true.
Proof.
  destruct x as [s1|s1| |s1 m1 e1]; destruct y as [s2|s2| |s2 m2 e2];
    try reflexivity.
  unfold div, SFdiv.
  pose proof (SFdiv_core_binary_nonneg (Z.pos m1) e1 (Z.pos m2) e2
                ltac:(lia) ltac:(lia)) as Hq.
  destruct (SFdiv_core_binary prec emax (Z.pos m1) e1 (Z.pos m2) e2)
    as [[q e'] lz] eqn:E. simpl in Hq.
  apply binary_round_aux_valid; [exact Hq|].
  pose proof (fexp_ge_emin (Zdigits2 q + e')) as Hmin.
  destruct (Z.le_gt_cases e' (-149)) as [Hle|Hgt]; [lia|].
  (* above the smallest exponent the quotient has at least 24 bits *)
  unfold SFdiv_core_binary in E. cbn [Zdigits2] in E.
  set (d1 := Z.pos (digits2_pos m1)) in *.
  set (d2 := Z.pos (digits2_pos m2)) in *.
  set (e0 := Z.min (fexp prec emax (d1 + e1 - (d2 + e2))) (e1 - e2)) in *.
  set (s := e1 - e2 - e0) in *.
  assert (Hs : 0 <= s) by (subst s e0; lia).
  set (m' := match s with
             | 0 => Z.pos m1 | Z.pos _ => Z.shiftl (Z.pos m1) s | Z.neg _ => 0
             end) in *.
  assert (Hm' : m' = Z.pos m1 * 2 ^ s).
  { subst m'. destruct s as [|p|p]; try lia.
    apply Z.shiftl_mul_pow2. lia. }
  pose proof (Z.div_eucl_eq m' (Z.pos m2) ltac:(lia)) as Heq.
  pose proof (Z.mod_pos_bound m' (Z.pos m2) ltac:(lia)) as Hr.
  unfold Z.modulo in Hr.
  destruct (Z.div_eucl m' (Z.pos m2)) as [q0 r0].
  inversion E; subst q e' lz. clear E.
  pose proof (digits2_pos_bounds m1) as [B1 _]. fold d1 in B1.
  pose proof (digits2_pos_bounds m2) as [_ B2]. fold d2 in B2.
  assert (He0 : e0 <= d1 + e1 - (d2 + e2) - 24).
  { assert (e0 <= fexp prec emax (d1 + e1 - (d2 + e2))) by (subst e0; lia).
    unfold fexp, emin, prec, emax in H. lia. }
  set (k := d1 - 1 + s - d2).
  assert (Hk : 23 <= k) by (subst k s; lia).
  assert (Hq23 : 2 ^ k <= q0).
  { destruct (Z.le_gt_cases (2 ^ k) q0) as [?|Hlt]; [assumption|exfalso].
    assert (P2 : 0 < 2 ^ d2) by (apply Z.pow_pos_nonneg; subst d2; lia).
    assert (Ps : 0 < 2 ^ s) by (apply Z.pow_pos_nonneg; lia).
    assert (Hup : m' < 2 ^ k * 2 ^ d2) by nia.
    rewrite <- pow2_split in Hup by (subst d2; lia).
    replace (k + d2) with ((d1 - 1) + s) in Hup by (subst k; lia).
    rewrite pow2_split in Hup by (subst d1; lia).
    rewrite Hm' in Hup. nia. }
  assert (Hq0 : 0 < q0).
  { assert (0 < 2 ^ k) by (apply Z.pow_pos_nonneg; lia). lia. }
  pose proof (Zdigits2_bounds q0 Hq0) as [_ Dq].
  pose proof (Zdigits2_pos q0 Hq0) as Dq0.
  assert (k < Zdigits2 q0) by (apply (Z.pow_lt_mono_r_iff 2); lia).
  unfold fexp, emin, prec, emax. lia.
Qed.

(** Multiplying a number of the format by [1.f] returns it. *)
Lemma mul_one_valid x : valid_binary prec emax x = true -> mul one x = x.
Proof.
  destruct x as [s|s| |s m e]; try reflexivity.
  intros Hv. simpl in Hv. unfold bounded, canonical_mantissa in Hv.
  apply andb_prop in Hv. destruct Hv as [Hc Hb].
  apply Z.eqb_eq in Hc. apply Z.leb_le in Hb.
  change one with (S754_finite false 8388608 (-23)).
  unfold mul, SFmul. cbn [xorb].
  unfold binary_round_aux.
  assert (Hprod : Z.pos (8388608 * m) = Z.pos m * 2 ^ 23) by (simpl; lia).
  pose proof (digits2_pos_bounds m) as [Dlo Dhi].
  set (d := Z.pos (digits2_pos m)) in *.
  assert (Dd : Zdigits2 (Z.pos (8388608 * m)) = d + 23).
  { apply Zdigits2_unique; [subst d; lia|]. rewrite Hprod.
    replace (d + 23 - 1) with ((d - 1) + 23) by lia.
    rewrite !pow2_split by (subst d; lia).
    assert (0 < 2 ^ 23) by reflexivity. split.
    - apply Z.mul_le_mono_nonneg_r; lia.
    - apply Z.mul_lt_mono_pos_r; lia. }
  assert (E1 : shr_fexp prec emax (Z.pos (8388608 * m)) (-23 + e) loc_Exact =
               (Build_shr_record (Z.pos m) false false, e)).
  { unfold shr_fexp. rewrite Dd.
    replace (d + 23 + (-23 + e)) with (d + e) by lia. rewrite Hc.
    replace (e - (-23 + e)) with 23 by lia.
    cbn [shr_record_of_loc shr].
    rewrite iter_pos_shr_1_exact
      by (rewrite ?Hprod; try lia; apply Z.mod_mul; discriminate).
    rewrite Hprod, Z.div_mul by discriminate. f_equal. lia. }
  assert (E2 : shr_fexp prec emax (Z.pos m) e loc_Exact =
               (Build_shr_record (Z.pos m) false false, e)).
  { unfold shr_fexp. cbn [Zdigits2]. fold d. rewrite Hc, Z.sub_diag.
    reflexivity. }
  rewrite E1. cbn [shr_m loc_of_shr_record round_nearest_even].
  rewrite E2. cbn [shr_m].
  replace (e <=? emax - prec) with true by (symmetry; apply Z.leb_le; exact Hb).
  reflexivity.
Qed.

Lemma binary_round_valid s m e :
  valid_binary prec emax (binary_round prec emax s m e) = true.
Proof.
  unfold binary_round, shl_align.
  set (d := Z.pos (digits2_pos m)).
  set (F := fexp prec emax (d + e)).
  destruct (F - e) as [|p|p] eqn:Ep.
  - apply binary_round_aux_valid; [lia|]. cbn [Zdigits2]. fold d F. lia.
  - apply binary_round_aux_valid; [lia|]. cbn [Zdigits2]. fold d F. lia.
  - apply binary_round_aux_valid; [lia|].
    assert (Dd : Zdigits2 (Z.pos (Pos.iter xO m p)) = d + Z.pos p).
    { apply Zdigits2_unique; [subst d; lia|]. rewrite Pos_iter_xO.
      pose proof (digits2_pos_bounds m) as [Dlo Dhi]. fold d in Dlo, Dhi.
      replace (d + Z.pos p - 1) with ((d - 1) + Z.pos p) by lia.
      rewrite !pow2_split by (subst d; lia).
      assert (0 < 2 ^ Z.pos p) by (apply Z.pow_pos_nonneg; lia). split.
      - apply Z.mul_le_mono_nonneg_r; lia.
      - apply Z.mul_lt_mono_pos_r; lia. }
    rewrite Dd. replace (d + Z.pos p + F) with (d + e) by lia. fold F. lia.
Qed.

Lemma binary_normalize_valid m e sz :
  valid_binary prec emax (binary_normalize prec emax m e sz) = true.
Proof.
  destruct m as [|p|p]; [reflexivity| |]; apply binary_round_valid.
Qed.

(** A sum of numbers of the format is a number of the format. *)
Lemma add_valid x y :
  valid_binary prec emax x = true -> valid_binary prec emax y = true ->
  valid_binary prec emax (add x y) = true.
Proof.
  intros Hx Hy.
  destruct x as [s1|s1| |s1 m1 e1]; destruct y as [s2|s2| |s2 m2 e2];
    try reflexivity; try exact Hx; try exact Hy;
    try (destruct s1, s2; reflexivity).
  apply binary_normalize_valid.
Qed.

Lemma counted_valid k : valid_binary prec emax (counted k) = true.
Proof.
  unfold counted. induction (Z.to_nat k) as [|n IH]; [reflexivity|].
  rewrite Nat.iter_succ. unfold float_incr. apply add_valid; [exact IH|].
  reflexivity.
Qed.

Lemma binary_normalize_sign z e :
  0 <= z -> has_sign false (binary_normalize prec emax z e false).
Proof.
  intros Hz. unfold binary_normalize. destruct z as [|p|p]; try lia.
  - reflexivity.
  - unfold binary_round.
    destruct (shl_align p e (fexp prec emax (Z.pos (digits2_pos p) + e)))
      as [mz ez].
    apply binary_round_aux_sign. lia.
Qed.

(** The counter of the [CountSamples] block is never negative and never
    NaN. *)
Lemma counted_sign k : has_sign false (counted k).
Proof.
  unfold counted. induction (Z.to_nat k) as [|n IH]; [reflexivity|].
  rewrite Nat.iter_succ.
  destruct (Nat.iter n float_incr zero) as [s|s| |s m e];
    simpl in IH; subst; try contradiction; try reflexivity.
  unfold float_incr, add.
  change one with (S754_finite false 8388608 (-23)).
  cbn [SFadd cond_Zopp].
  apply binary_normalize_sign. lia.
Qed.

End FramesPerSecond.
